(** * Identifier allocators of [unique_id_generator]

    A shallow embedding of the four classes of [unique_id_generator.hpp] /
    [unique_id_generator.cpp]:

    - [IdGenerator]: unbounded recycling allocator over [unsigned int],
      lenient [reclaim_id], wrap-around check on the fresh counter;
    - [UniqueIDGenerator]: the deprecated unbounded recycling allocator over
      [int], strict [reclaim_id];
    - [BoundedUniqueIDGenerator]: the deprecated bounded allocator;
    - [GlobalUIDGenerator]: the process-wide counter.

    Member functions are written in a state-and-exception monad over the
    object's fields, so that what a [throw] leaves behind is part of the
    model.  [std::unordered_set<int>] is a [gset Z], [std::queue<int>] a
    [list Z] whose head is the front. *)

From stdpp Require Import base numbers list strings pretty gmap.

Local Open Scope Z_scope.

(** ** 32-bit integers *)

Definition INT_MAX : Z := 2147483647.
Definition INT_MIN : Z := -2147483648.
Definition UINT_MAX : Z := 4294967295.

(** [unsigned int] arithmetic is modulo [2^32]. *)
Definition wrap_uint (z : Z) : Z := z `mod` 2 ^ 32.

(** [int] arithmetic, taken two's complement: ISO C++ leaves signed
    overflow undefined, and this embedding follows what the hardware does. *)
Definition wrap_int (z : Z) : Z := (z + 2 ^ 31) `mod` 2 ^ 32 - 2 ^ 31.

Definition is_int (z : Z) : Prop := INT_MIN ≤ z ≤ INT_MAX.

(** ** Exceptions and the monad of member functions *)

Inductive exception : Type :=
| invalid_argument (what : string)
| runtime_error (what : string).

Inductive outcome (A : Type) : Type :=
| Return (a : A)
| Throw (e : exception).
Arguments Return {A} a.
Arguments Throw {A} e.

(** A member function over fields [S]: the outcome and the fields as the
    call leaves them, whether it returned or threw. *)
Definition M (S A : Type) : Type := S → outcome A * S.

Global Instance M_ret {S} : MRet (M S) := λ A a s, (Return a, s).
Global Instance M_bind {S} : MBind (M S) := λ A B f m s,
  match m s with
  | (Return a, s') => f a s'
  | (Throw e, s') => (Throw e, s')
  end.

Definition throw {S A} (e : exception) : M S A := λ s, (Throw e, s).
Definition gets {S A} (f : S → A) : M S A := λ s, (Return (f s), s).
Definition modify {S} (f : S → S) : M S unit := λ s, (Return (), f s).

(** [for (int i = lo; i < hi; ++i) body(i)].  The counter stays within
    [lo .. hi], so [++i] never leaves the range of [int]. *)
Definition for_range {S} (lo hi : Z) (body : Z → M S unit) : M S unit :=
  foldr (λ i k, body i ;; k) (mret ()) (seqZ lo (hi - lo)).

(** A caller invoking [op] [n] times in a row and collecting what it
    returned; the first exception propagates. *)
Fixpoint repeat_call {S A} (n : nat) (op : M S A) : M S (list A) :=
  match n with
  | O => mret []
  | S n => x ← op; xs ← repeat_call n op; mret (x :: xs)
  end.

(** The fields after a call, returned or thrown: a caller that catches the
    exception goes on with the object as the [throw] left it. *)
Definition exec {S A} (m : M S A) (s : S) : S := (m s).2.

(** The abstract base [IDGenerator]: [virtual int get_id()] and
    [virtual void reclaim_id(int)]. *)
Class IDGenerator (S : Type) : Type := {
  virtual_get_id : M S Z;
  virtual_reclaim_id : Z → M S unit
}.

(** Calls through the base class, and a caller making a sequence of them. *)
Inductive call : Type :=
| call_get_id
| call_reclaim_id (id_value : Z).

Definition perform {S} `{IDGenerator S} (c : call) : M S unit :=
  match c with
  | call_get_id => virtual_get_id ;; mret ()
  | call_reclaim_id id_value => virtual_reclaim_id id_value
  end.

Definition run {S} `{IDGenerator S} (cs : list call) (s : S) : S :=
  foldl (λ s c, exec (perform c) s) s cs.

(** Modelled from the spec: the logging collaborator ([GlobalLogSection] and
    [global_logger], declared in [sbpt_generated_includes.hpp], which is not
    among the sources).  The spec has it "entirely optional" and such that it
    "must not affect allocator correctness": a logging call returns and
    leaves the allocator's fields alone. *)
Definition GlobalLogSection {S} (name : string) : M S unit := mret ().

(** Modelled from the spec: [global_logger->debug(fmt, args...)], a logging
    call as above. *)
Definition global_logger_debug {S} (fmt : string) (args : list Z) : M S unit :=
  mret ().

(** Modelled from the spec: [global_logger->warn(fmt)], a logging call as
    above. *)
Definition global_logger_warn {S} (fmt : string) : M S unit := mret ().

(** ** [IdGenerator] *)

Module IdGenerator.

(** The public [log_mode] field only configures the logger and is left out. *)
Record state : Type := {
  next_id : Z;
  used_ids : gset Z;
  reclaimed_ids : list Z
}.

Definition set_next_id (f : Z → Z) (s : state) : state :=
  {| next_id := f (next_id s); used_ids := used_ids s;
     reclaimed_ids := reclaimed_ids s |}.
Definition set_used_ids (f : gset Z → gset Z) (s : state) : state :=
  {| next_id := next_id s; used_ids := f (used_ids s);
     reclaimed_ids := reclaimed_ids s |}.
Definition set_reclaimed_ids (f : list Z → list Z) (s : state) : state :=
  {| next_id := next_id s; used_ids := used_ids s;
     reclaimed_ids := f (reclaimed_ids s) |}.

(** [unsigned int next_id = 0] and empty containers. *)
Definition initial : state :=
  {| next_id := 0; used_ids := ∅; reclaimed_ids := [] |}.

Definition get_id : M state Z :=
  GlobalLogSection "get_id";;
  q ← gets reclaimed_ids;
  id ← match q with
       | front :: rest =>
           global_logger_debug "we are using a reclaimed id" [];;
           modify (set_reclaimed_ids (λ _, rest));;
           mret front
       | [] =>
           global_logger_debug "we are incrementing to get an id" [];;
           id ← gets next_id;
           modify (set_next_id (λ n, wrap_uint (n + 1)));;
           n ← gets next_id;
           (if decide (n = UINT_MAX)
            then global_logger_warn "we hit the numerical max id";;
                 modify (set_next_id (λ _, 0))
            else mret ());;
           mret id
       end;
  global_logger_debug "generated id: {}" [id];;
  modify (set_used_ids (λ u, {[id]} ∪ u));;
  mret id.

Definition reclaim_id (id : Z) : M state unit :=
  GlobalLogSection "reclaim_id";;
  global_logger_debug "reclaiming id: {}" [id];;
  u ← gets used_ids;
  if decide (id ∈ u)
  then modify (set_used_ids (λ u, u ∖ {[id]}));;
       modify (set_reclaimed_ids (λ q, q ++ [id]))
  else mret ().

Definition is_used (id : Z) (s : state) : bool := bool_decide (id ∈ used_ids s).

End IdGenerator.

(** ** [UniqueIDGenerator] (deprecated) *)

Module UniqueIDGenerator.

Record state : Type := {
  next_id : Z;
  used_ids : gset Z;
  reclaimed_ids : list Z
}.

Definition set_next_id (f : Z → Z) (s : state) : state :=
  {| next_id := f (next_id s); used_ids := used_ids s;
     reclaimed_ids := reclaimed_ids s |}.
Definition set_used_ids (f : gset Z → gset Z) (s : state) : state :=
  {| next_id := next_id s; used_ids := f (used_ids s);
     reclaimed_ids := reclaimed_ids s |}.
Definition set_reclaimed_ids (f : list Z → list Z) (s : state) : state :=
  {| next_id := next_id s; used_ids := used_ids s;
     reclaimed_ids := f (reclaimed_ids s) |}.

Definition initial : state :=
  {| next_id := 0; used_ids := ∅; reclaimed_ids := [] |}.

Definition InvalidReclaim : exception :=
  invalid_argument "Invalid or already reclaimed ID".

Definition get_id : M state Z :=
  q ← gets reclaimed_ids;
  match q with
  | id :: rest =>
      modify (set_reclaimed_ids (λ _, rest));;
      modify (set_used_ids (λ u, {[id]} ∪ u));;
      mret id
  | [] =>
      id ← gets next_id;
      modify (set_next_id (λ n, wrap_int (n + 1)));;
      modify (set_used_ids (λ u, {[id]} ∪ u));;
      mret id
  end.

Definition reclaim_id (id_value : Z) : M state unit :=
  u ← gets used_ids;
  if decide (id_value ∉ u) then throw InvalidReclaim
  else
    modify (set_used_ids (λ u, u ∖ {[id_value]}));;
    modify (set_reclaimed_ids (λ q, q ++ [id_value])).

Definition get_used_ids (s : state) : list Z := elements (used_ids s).

End UniqueIDGenerator.

Global Instance UniqueIDGenerator_IDGenerator :
  IDGenerator UniqueIDGenerator.state := {
  virtual_get_id := UniqueIDGenerator.get_id;
  virtual_reclaim_id := UniqueIDGenerator.reclaim_id
}.


(** [operator<<] of [UniqueIDGenerator]: the characters written to the
    stream, appended to what it already holds.  The stream is taken with its
    default formatting ([int] in decimal, no field width); [size_t] is 64
    bits wide, and [ids.size() - 1] is computed in it. *)
Definition SIZE_MAX : Z := 18446744073709551615.
Definition wrap_size (z : Z) : Z := z `mod` 2 ^ 64.

Definition ostream : Type := string.
Definition put (str : string) : M ostream unit := modify (λ os, os +:+ str).

Definition operator_shl (generator : UniqueIDGenerator.state) : M ostream unit :=
  put "Used IDs: [";;
  let ids := UniqueIDGenerator.get_used_ids generator in
  for_range 0 (Z.of_nat (length ids)) (λ i,
    put (pretty (ids !!! Z.to_nat i));;
    if decide (i < wrap_size (Z.of_nat (length ids) - 1))
    then put ", "
    else mret ());;
  put "]".

(** ** [BoundedUniqueIDGenerator] (deprecated) *)

Module BoundedUniqueIDGenerator.

Record state : Type := {
  max_value : Z;
  next_id : Z;
  available_ids : list Z;
  used_ids : gset Z
}.

Definition set_available_ids (f : list Z → list Z) (s : state) : state :=
  {| max_value := max_value s; next_id := next_id s;
     available_ids := f (available_ids s); used_ids := used_ids s |}.
Definition set_used_ids (f : gset Z → gset Z) (s : state) : state :=
  {| max_value := max_value s; next_id := next_id s;
     available_ids := available_ids s; used_ids := f (used_ids s) |}.

(** The spec's error taxonomy, as the exceptions the class throws.  (The
    older header throws the [InvalidReclaim] message without the number.) *)
Definition InvalidCapacity : exception :=
  invalid_argument "max_value must be greater than 0".
Definition CapacityExhausted : exception :=
  runtime_error "Maximum ID limit reached".
Definition InvalidReclaim (id_value : Z) : exception :=
  invalid_argument ("Invalid or already reclaimed ID: " +:+ pretty id_value).

(** The member initialisers [max_value(max_value), next_id(0)] and the
    default-constructed containers. *)
Definition member_init (max_value : Z) : state :=
  {| max_value := max_value; next_id := 0;
     available_ids := []; used_ids := ∅ |}.

Definition constructor_body (max_value : Z) : M state unit :=
  if decide (max_value ≤ 0) then throw InvalidCapacity
  else for_range 0 max_value (λ i, modify (set_available_ids (λ q, q ++ [i]))).

(** An exception leaving the constructor means no object exists. *)
Definition construct (max_value : Z) : exception + state :=
  match constructor_body max_value (member_init max_value) with
  | (Return _, s) => inr s
  | (Throw e, _) => inl e
  end.

Definition get_id : M state Z :=
  q ← gets available_ids;
  match q with
  | [] => throw CapacityExhausted
  | id :: rest =>
      modify (set_available_ids (λ _, rest));;
      modify (set_used_ids (λ u, {[id]} ∪ u));;
      mret id
  end.

Definition reclaim_id (id_value : Z) : M state unit :=
  mv ← gets max_value;
  u ← gets used_ids;
  if decide (id_value < 0 ∨ mv ≤ id_value ∨ id_value ∉ u)
  then throw (InvalidReclaim id_value)
  else
    modify (set_used_ids (λ u, u ∖ {[id_value]}));;
    modify (set_available_ids (λ q, q ++ [id_value])).

Definition get_free_ids (s : state) : list Z := available_ids s.
Definition get_used_ids (s : state) : list Z := elements (used_ids s).

End BoundedUniqueIDGenerator.

Global Instance BoundedUniqueIDGenerator_IDGenerator :
  IDGenerator BoundedUniqueIDGenerator.state := {
  virtual_get_id := BoundedUniqueIDGenerator.get_id;
  virtual_reclaim_id := BoundedUniqueIDGenerator.reclaim_id
}.

(** ** [GlobalUIDGenerator] *)

Module GlobalUIDGenerator.

(** The two static data members. *)
Record state : Type := {
  current_id : Z;
  last_generated_id : Z
}.

(** [int GlobalUIDGenerator::current_id = 0;] and
    [int GlobalUIDGenerator::last_generated_id = 0;] *)
Definition initial : state := {| current_id := 0; last_generated_id := 0 |}.

Definition get_id : M state Z :=
  modify (λ s, {| current_id := wrap_int (current_id s + 1);
                  last_generated_id := last_generated_id s |});;
  modify (λ s, {| current_id := current_id s;
                  last_generated_id := current_id s |});;
  gets current_id.

(** The first revision names the class [UniqueIDGenerator] and the function
    [generate]; the body is the same. *)
Definition generate : M state Z := get_id.

End GlobalUIDGenerator.

(** * Specification vocabulary *)

(** The invariant of a bounded allocator of capacity [C] (with
    [max_value = C] and a duplicate-free pool, which make it inductive). *)
Definition bounded_inv (C : Z) (s : BoundedUniqueIDGenerator.state) : Prop :=
  BoundedUniqueIDGenerator.max_value s = C
  ∧ NoDup (BoundedUniqueIDGenerator.available_ids s)
  ∧ (∀ id, id ∈ BoundedUniqueIDGenerator.used_ids s →
           id ∉ BoundedUniqueIDGenerator.available_ids s)
  ∧ (size (BoundedUniqueIDGenerator.used_ids s)
     + length (BoundedUniqueIDGenerator.available_ids s))%nat = Z.to_nat C.

(** A bounded allocator of capacity 2 as constructed, and a caller who
    allocates, reclaims an identifier out of range and then the one held. *)
Definition bounded_two : BoundedUniqueIDGenerator.state :=
  {| BoundedUniqueIDGenerator.max_value := 2;
     BoundedUniqueIDGenerator.next_id := 0;
     BoundedUniqueIDGenerator.available_ids := [0; 1];
     BoundedUniqueIDGenerator.used_ids := ∅ |}.
Definition sample_calls : list call :=
  [call_get_id; call_reclaim_id 7; call_reclaim_id 0].

(** An [IdGenerator] after [UINT_MAX - 1] allocations and a
    [UniqueIDGenerator] after [INT_MAX - 1] allocations, nothing reclaimed:
    the next fresh identifier is the last one below the maximum. *)
Definition idgen_last_fresh : IdGenerator.state :=
  exec (repeat_call (Z.to_nat 4294967294) IdGenerator.get_id)
       IdGenerator.initial.
Definition uniq_last_fresh : UniqueIDGenerator.state :=
  exec (repeat_call (Z.to_nat 2147483646) UniqueIDGenerator.get_id)
       UniqueIDGenerator.initial.

(** The same counters with nothing held. *)
Definition idgen_edge : IdGenerator.state :=
  {| IdGenerator.next_id := 4294967294;
     IdGenerator.used_ids := ∅;
     IdGenerator.reclaimed_ids := [] |}.
Definition uniq_edge : UniqueIDGenerator.state :=
  {| UniqueIDGenerator.next_id := 2147483646;
     UniqueIDGenerator.used_ids := ∅;
     UniqueIDGenerator.reclaimed_ids := [] |}.

(** Allocators holding [3] and [5], with [8] waiting in the pool. *)
Definition idgen_busy : IdGenerator.state :=
  {| IdGenerator.next_id := 9;
     IdGenerator.used_ids := {[3; 5]};
     IdGenerator.reclaimed_ids := [8] |}.
Definition uniq_busy : UniqueIDGenerator.state :=
  {| UniqueIDGenerator.next_id := 9;
     UniqueIDGenerator.used_ids := {[3; 5]};
     UniqueIDGenerator.reclaimed_ids := [8] |}.

(** Every identifier of [[0, C)] is either used or in the pool of a bounded
    allocator of capacity [C], and nothing else is. *)
Definition bounded_universe (C : Z) (s : BoundedUniqueIDGenerator.state) : Prop :=
  ∀ x, (x ∈ BoundedUniqueIDGenerator.used_ids s
        ∨ x ∈ BoundedUniqueIDGenerator.available_ids s) ↔ 0 ≤ x < C.

(** A caller of an [IdGenerator], which is not an [IDGenerator]: the same
    sequences of calls, made on the object directly. *)
Definition idgen_perform (c : call) : M IdGenerator.state unit :=
  match c with
  | call_get_id => IdGenerator.get_id ;; mret ()
  | call_reclaim_id id => IdGenerator.reclaim_id id
  end.

Definition idgen_run (cs : list call) (s : IdGenerator.state) : IdGenerator.state :=
  foldl (λ s c, exec (idgen_perform c) s) s cs.

(** The invariant of the unbounded allocators while the counter has only
    gone up, [k] bounding the calls made so far: the pool has no duplicates,
    shares nothing with the used set, and together they hold exactly the
    identifiers below the counter. *)
Definition idgen_inv (k : Z) (s : IdGenerator.state) : Prop :=
  0 ≤ IdGenerator.next_id s ≤ k
  ∧ NoDup (IdGenerator.reclaimed_ids s)
  ∧ (∀ x, x ∈ IdGenerator.used_ids s → x ∉ IdGenerator.reclaimed_ids s)
  ∧ (∀ x, (x ∈ IdGenerator.used_ids s ∨ x ∈ IdGenerator.reclaimed_ids s)
          ↔ 0 ≤ x < IdGenerator.next_id s).

Definition uniq_inv (k : Z) (s : UniqueIDGenerator.state) : Prop :=
  0 ≤ UniqueIDGenerator.next_id s ≤ k
  ∧ NoDup (UniqueIDGenerator.reclaimed_ids s)
  ∧ (∀ x, x ∈ UniqueIDGenerator.used_ids s →
          x ∉ UniqueIDGenerator.reclaimed_ids s)
  ∧ (∀ x, (x ∈ UniqueIDGenerator.used_ids s
           ∨ x ∈ UniqueIDGenerator.reclaimed_ids s)
          ↔ 0 ≤ x < UniqueIDGenerator.next_id s).

(** An [IdGenerator] and a [UniqueIDGenerator] holding the same counter,
    used set and pool. *)
Definition same_fields (a : IdGenerator.state) (b : UniqueIDGenerator.state) : Prop :=
  IdGenerator.next_id a = UniqueIDGenerator.next_id b
  ∧ IdGenerator.used_ids a = UniqueIDGenerator.used_ids b
  ∧ IdGenerator.reclaimed_ids a = UniqueIDGenerator.reclaimed_ids b.

(** * Properties *)

(** Unfold one call down to the fields it reads and writes. *)
Ltac unfold_call :=
  unfold mbind, M_bind, gets, GlobalLogSection, global_logger_debug,
    global_logger_warn; cbn.

(** ** The bounded allocator *)

Section bounded.
Import BoundedUniqueIDGenerator.

Implicit Types (s : state) (id : Z) (q : list Z).

Lemma push_all_spec q s :
  foldr (λ i k, modify (set_available_ids (λ q, q ++ [i])) ;; k) (mret ()) q s
  = (Return (), set_available_ids (λ q0, q0 ++ q) s).
Proof.
  revert s. induction q as [|i q IH]; intros s.
  - destruct s. cbn. unfold set_available_ids. cbn. by rewrite app_nil_r.
  - cbn. unfold mbind, M_bind, modify at 1. cbn. rewrite IH.
    destruct s. unfold set_available_ids. cbn. by rewrite <- app_assoc.
Qed.

Lemma get_id_empty s :
  available_ids s = [] → get_id s = (Throw CapacityExhausted, s).
Proof. intros Hq. unfold get_id, mbind, M_bind, gets. by rewrite Hq. Qed.

Lemma get_id_front s id rest :
  available_ids s = id :: rest →
  get_id s = (Return id, {| max_value := max_value s; next_id := next_id s;
                            available_ids := rest;
                            used_ids := {[id]} ∪ used_ids s |}).
Proof. intros Hq. unfold get_id, mbind, M_bind, gets. by rewrite Hq. Qed.

Lemma repeat_get_id q : ∀ s rest,
  available_ids s = q ++ rest →
  ∃ s', repeat_call (length q) get_id s = (Return q, s')
        ∧ available_ids s' = rest ∧ max_value s' = max_value s.
Proof.
  induction q as [|id q IH]; intros s rest Hq.
  - exists s. by cbn.
  - cbn [length repeat_call]. unfold mbind at 1, M_bind at 1.
    rewrite (get_id_front s id (q ++ rest) Hq).
    edestruct (IH {| max_value := max_value s; next_id := next_id s;
                     available_ids := q ++ rest;
                     used_ids := {[id]} ∪ used_ids s |} rest)
      as (s' & Hrun & Hrest & Hmax); [done|].
    exists s'. unfold mbind, M_bind. rewrite Hrun. by cbn.
Qed.

Lemma construct_nonpositive (capacity : Z) :
  capacity ≤ 0 → construct capacity = inl InvalidCapacity.
Proof.
  intros Hc. unfold construct, constructor_body. by rewrite decide_True.
Qed.

Lemma construct_positive (capacity : Z) :
  0 < capacity →
  construct capacity =
  inr {| max_value := capacity; next_id := 0;
         available_ids := seqZ 0 capacity; used_ids := ∅ |}.
Proof.
  intros Hc. unfold construct, constructor_body.
  rewrite decide_False by lia. unfold for_range.
  rewrite push_all_spec. cbn. by rewrite Z.sub_0_r.
Qed.

(** C4. Constructing a bounded allocator with a capacity [≤ 0] throws
    [InvalidCapacity] and yields no object; with a capacity [> 0] it yields
    the object whose free pool is [0, 1, ..., capacity - 1] in ascending
    order and whose used set is empty. *)
Theorem bounded_construct_spec (capacity : Z) :
  (capacity ≤ 0 → construct capacity = inl InvalidCapacity)
  ∧ (0 < capacity →
     ∃ s, construct capacity = inr s
          ∧ available_ids s = seqZ 0 capacity
          ∧ used_ids s = ∅
          ∧ max_value s = capacity).
Proof.
  split; intros Hc.
  - by apply construct_nonpositive.
  - eexists. split; [by apply construct_positive|done].
Qed.

(** C1. A bounded allocator of capacity [C ≥ 1]: the first [C] calls of
    [get_id] all return, their results are [C] distinct identifiers from
    [[0, C)] (indeed [0 .. C-1] in this order), and the next call throws
    [CapacityExhausted] and leaves the fields as they were. *)
Theorem bounded_exhaustion (C : Z) :
  1 ≤ C →
  ∃ s0 ids sC,
    construct C = inr s0
    ∧ repeat_call (Z.to_nat C) get_id s0 = (Return ids, sC)
    ∧ length ids = Z.to_nat C
    ∧ NoDup ids
    ∧ (∀ id, id ∈ ids → 0 ≤ id < C)
    ∧ ids = seqZ 0 C
    ∧ get_id sC = (Throw CapacityExhausted, sC).
Proof.
  intros HC.
  pose proof (construct_positive C ltac:(lia)) as Hnew.
  destruct (repeat_get_id (seqZ 0 C)
              {| max_value := C; next_id := 0;
                 available_ids := seqZ 0 C; used_ids := ∅ |} [])
    as (sC & Hrun & Hrest & _); [by rewrite app_nil_r|].
  rewrite length_seqZ in Hrun.
  eexists _, (seqZ 0 C), sC. split; [exact Hnew|]. cbn in Hrun.
  split_and!; try done.
  - apply length_seqZ.
  - apply NoDup_seqZ.
  - intros id Hid. apply elem_of_seqZ in Hid. lia.
  - by apply get_id_empty.
Qed.

Lemma bounded_exhaustion_witness :
  ∃ s0 ids sC,
    construct 3 = inr s0
    ∧ repeat_call (Z.to_nat 3) get_id s0 = (Return ids, sC)
    ∧ length ids = Z.to_nat 3
    ∧ NoDup ids
    ∧ (∀ id, id ∈ ids → 0 ≤ id < 3)
    ∧ ids = seqZ 0 3
    ∧ get_id sC = (Throw CapacityExhausted, sC).
Proof. apply (bounded_exhaustion 3). lia. Defined.

Lemma reclaim_id_invalid s id :
  id < 0 ∨ max_value s ≤ id ∨ id ∉ used_ids s →
  reclaim_id id s = (Throw (InvalidReclaim id), s).
Proof.
  intros Hbad. unfold reclaim_id, mbind, M_bind, gets. by rewrite decide_True.
Qed.

Lemma reclaim_id_valid s id :
  ¬ (id < 0 ∨ max_value s ≤ id ∨ id ∉ used_ids s) →
  reclaim_id id s =
  (Return (), {| max_value := max_value s; next_id := next_id s;
                 available_ids := available_ids s ++ [id];
                 used_ids := used_ids s ∖ {[id]} |}).
Proof.
  intros Hok. unfold reclaim_id, mbind, M_bind, gets. by rewrite decide_False.
Qed.

(** C5. [reclaim_id id] throws [InvalidReclaim] exactly when [id] is outside
    [[0, max_value)] or not in the used set; when it throws, the fields are
    unchanged; when it returns, [id] has left the used set and sits at the
    back of the free pool. *)
Theorem bounded_reclaim_spec (s : state) (id : Z) :
  ((reclaim_id id s).1 = Throw (InvalidReclaim id)
   ↔ (id < 0 ∨ max_value s ≤ id) ∨ id ∉ used_ids s)
  ∧ ((reclaim_id id s).1 = Return ()
     ↔ (0 ≤ id < max_value s) ∧ id ∈ used_ids s)
  ∧ ((reclaim_id id s).1 = Throw (InvalidReclaim id) →
     (reclaim_id id s).2 = s)
  ∧ ((reclaim_id id s).1 = Return () →
     used_ids (reclaim_id id s).2 = used_ids s ∖ {[id]}
     ∧ available_ids (reclaim_id id s).2 = available_ids s ++ [id]
     ∧ max_value (reclaim_id id s).2 = max_value s).
Proof.
  destruct (decide (id < 0 ∨ max_value s ≤ id ∨ id ∉ used_ids s)) as [Hbad|Hok].
  - rewrite (reclaim_id_invalid s id Hbad). cbn.
    split_and!; [split; [tauto|done] |split; [discriminate|] |done|done].
    intros [Hrange Hin]. destruct Hbad as [?|[?|?]]; [lia|lia|done].
  - rewrite (reclaim_id_valid s id Hok). cbn.
    assert (0 ≤ id < max_value s ∧ id ∈ used_ids s) as Hin.
    { destruct (decide (id ∈ used_ids s)); [|tauto]. split; [lia|done]. }
    split_and!; [split; [discriminate|] |done|discriminate|done].
    intros [[?|?]|?]; [lia|lia|tauto].
Qed.

Lemma bounded_inv_construct C s0 :
  construct C = inr s0 → bounded_inv C s0.
Proof.
  intros Hnew. destruct (decide (C ≤ 0)) as [Hle|Hgt].
  - rewrite construct_nonpositive in Hnew by done. discriminate.
  - rewrite construct_positive in Hnew by lia. injection Hnew as <-.
    unfold bounded_inv. cbn. split_and!; [done|apply NoDup_seqZ|set_solver|].
    rewrite size_empty, length_seqZ. lia.
Qed.

Lemma bounded_inv_get_id C s :
  bounded_inv C s → bounded_inv C (exec get_id s).
Proof.
  intros (Hmax & Hnd & Hdisj & Hsize). unfold exec.
  destruct (available_ids s) as [|id rest] eqn:Hq.
  - rewrite (get_id_empty s Hq). cbn. unfold bounded_inv. by rewrite Hq.
  - rewrite (get_id_front s id rest Hq). cbn.
    apply NoDup_cons in Hnd as [Hid Hrest].
    assert (id ∉ used_ids s) as Hfree.
    { intros Hin. apply (Hdisj id Hin). left. }
    unfold bounded_inv. cbn. split_and!; [done|done| |].
    + intros x [->%elem_of_singleton|Hx]%elem_of_union; [done|].
      intros Hxr. apply (Hdisj x Hx). by right.
    + rewrite size_union by set_solver. rewrite size_singleton.
      cbn in Hsize. lia.
Qed.

Lemma bounded_inv_reclaim_id C s id :
  bounded_inv C s → bounded_inv C (exec (reclaim_id id) s).
Proof.
  intros (Hmax & Hnd & Hdisj & Hsize). unfold exec.
  destruct (decide (id < 0 ∨ max_value s ≤ id ∨ id ∉ used_ids s)) as [Hbad|Hok].
  - by rewrite (reclaim_id_invalid s id Hbad).
  - rewrite (reclaim_id_valid s id Hok). cbn.
    assert (id ∈ used_ids s) as Hin.
    { destruct (decide (id ∈ used_ids s)); [done|tauto]. }
    unfold bounded_inv. cbn. split_and!; [done| | |].
    + apply NoDup_app. split_and!; [done| |apply NoDup_singleton].
      intros x Hx ->%list_elem_of_singleton. by apply (Hdisj id).
    + intros x [Hx Hne]%elem_of_difference [Hxq|Hxi]%elem_of_app.
      * by apply (Hdisj x).
      * apply list_elem_of_singleton in Hxi. set_solver.
    + rewrite size_difference by set_solver. rewrite size_singleton.
      rewrite length_app. cbn.
      assert (size (used_ids s) ≠ 0%nat) as Hpos.
      { intros H0%size_empty_inv. set_solver. }
      lia.
Qed.

Lemma bounded_inv_run C (cs : list call) : ∀ s,
  bounded_inv C s → bounded_inv C (run cs s).
Proof.
  induction cs as [|c cs IH]; intros s Hs; [done|].
  cbn. apply IH. destruct c as [|id]; cbn.
  - pose proof (bounded_inv_get_id C s Hs) as Hstep. unfold exec in *.
    unfold mbind, M_bind. by destruct (get_id s) as [[x|e] s'].
  - by apply bounded_inv_reclaim_id.
Qed.

(** C2. From construction with capacity [C] on, after every sequence of
    [get_id] / [reclaim_id] calls (throwing ones included) no identifier is
    both used and in the free pool, and the number of used identifiers plus
    the length of the pool is [C]. *)
Theorem bounded_conservation (C : Z) (s0 : state) (cs : list call) :
  construct C = inr s0 →
  (∀ id, id ∈ used_ids (run cs s0) → id ∉ available_ids (run cs s0))
  ∧ Z.of_nat (size (used_ids (run cs s0)))
    + Z.of_nat (length (available_ids (run cs s0))) = C.
Proof.
  intros Hnew.
  destruct (bounded_inv_run C cs s0 (bounded_inv_construct C s0 Hnew))
    as (_ & _ & Hdisj & Hsize).
  split; [done|].
  assert (0 < C).
  { destruct (decide (C ≤ 0)); [|lia].
    rewrite construct_nonpositive in Hnew by done. discriminate. }
  lia.
Qed.

Lemma bounded_conservation_witness :
  (∀ id, id ∈ used_ids (run sample_calls bounded_two) →
         id ∉ available_ids (run sample_calls bounded_two))
  ∧ Z.of_nat (size (used_ids (run sample_calls bounded_two)))
    + Z.of_nat (length (available_ids (run sample_calls bounded_two))) = 2.
Proof.
  apply (bounded_conservation 2 bounded_two sample_calls). reflexivity.
Defined.

End bounded.

(** ** 32-bit arithmetic *)

Lemma wrap_uint_small (z : Z) : 0 ≤ z ≤ UINT_MAX → wrap_uint z = z.
Proof. unfold wrap_uint, UINT_MAX. intros Hz. apply Z.mod_small. lia. Qed.

Lemma wrap_int_small (z : Z) : INT_MIN ≤ z ≤ INT_MAX → wrap_int z = z.
Proof.
  unfold wrap_int, INT_MIN, INT_MAX. intros Hz.
  rewrite Z.mod_small by lia. lia.
Qed.

Lemma wrap_int_range (z : Z) : is_int (wrap_int z).
Proof.
  unfold is_int, wrap_int, INT_MIN, INT_MAX.
  pose proof (Z.mod_pos_bound (z + 2 ^ 31) (2 ^ 32) ltac:(lia)). lia.
Qed.

(** ** The unbounded allocators *)

Section lenient.
Import IdGenerator.

Implicit Types (s : state) (id : Z).

Lemma idgen_get_id_reuse s front rest :
  reclaimed_ids s = front :: rest →
  get_id s = (Return front, {| next_id := next_id s;
                               used_ids := {[front]} ∪ used_ids s;
                               reclaimed_ids := rest |}).
Proof.
  intros Hq. unfold get_id. unfold_call. by rewrite Hq.
Qed.

Lemma idgen_get_id_fresh s :
  reclaimed_ids s = [] →
  get_id s =
  (Return (next_id s),
   {| next_id := if decide (wrap_uint (next_id s + 1) = UINT_MAX) then 0
                 else wrap_uint (next_id s + 1);
      used_ids := {[next_id s]} ∪ used_ids s;
      reclaimed_ids := [] |}).
Proof.
  intros Hq. unfold get_id. unfold_call. rewrite Hq. cbn.
  unfold set_used_ids, set_next_id. cbn.
  destruct (decide (wrap_uint (next_id s + 1) = UINT_MAX)); cbn;
    by rewrite Hq.
Qed.

Lemma idgen_reclaim_used s id :
  id ∈ used_ids s →
  reclaim_id id s = (Return (), {| next_id := next_id s;
                                   used_ids := used_ids s ∖ {[id]};
                                   reclaimed_ids := reclaimed_ids s ++ [id] |}).
Proof.
  intros Hin. unfold reclaim_id. unfold_call. by rewrite decide_True.
Qed.

Lemma idgen_reclaim_unused s id :
  id ∉ used_ids s → reclaim_id id s = (Return (), s).
Proof.
  intros Hin. unfold reclaim_id. unfold_call. by rewrite decide_False.
Qed.

Lemma idgen_fresh_run (n : nat) : ∀ s,
  reclaimed_ids s = [] →
  0 ≤ next_id s →
  next_id s + Z.of_nat n < UINT_MAX →
  ∃ s', repeat_call n get_id s = (Return (seqZ (next_id s) (Z.of_nat n)), s')
        ∧ next_id s' = next_id s + Z.of_nat n
        ∧ reclaimed_ids s' = []
        ∧ used_ids s' = list_to_set (seqZ (next_id s) (Z.of_nat n)) ∪ used_ids s.
Proof.
  induction n as [|n IH]; intros s Hq Hlo Hhi.
  - exists s. cbn. split_and!; [done|lia|done|].
    change (seqZ (next_id s) (Z.of_nat 0)) with (@nil Z).
    by rewrite list_to_set_nil, (left_id_L ∅ (∪)).
  - rewrite Nat2Z.inj_succ in *.
    cbn [repeat_call]. unfold mbind at 1, M_bind at 1.
    rewrite (idgen_get_id_fresh s Hq).
    rewrite wrap_uint_small by (unfold UINT_MAX in *; lia).
    rewrite decide_False by lia.
    destruct (IH {| next_id := next_id s + 1;
                    used_ids := {[next_id s]} ∪ used_ids s;
                    reclaimed_ids := [] |})
      as (s' & Hrun & Hnext & Hq' & Hused); [done|cbn; lia|cbn; lia|].
    cbn [next_id used_ids] in Hrun, Hnext, Hused.
    exists s'. unfold mbind, M_bind. rewrite Hrun.
    rewrite (seqZ_cons (next_id s) (Z.succ (Z.of_nat n))) by lia.
    rewrite Z.pred_succ.
    replace (Z.succ (next_id s)) with (next_id s + 1) by lia.
    split_and!; [done|lia|done|]. rewrite Hused. cbn [list_to_set foldr].
    rewrite (assoc_L (∪)). f_equal. apply (comm_L (∪)).
Qed.

End lenient.

Section strict.
Import UniqueIDGenerator.

Implicit Types (s : state) (id : Z).

Lemma uniq_get_id_reuse s front rest :
  reclaimed_ids s = front :: rest →
  get_id s = (Return front, {| next_id := next_id s;
                               used_ids := {[front]} ∪ used_ids s;
                               reclaimed_ids := rest |}).
Proof. intros Hq. unfold get_id, mbind, M_bind, gets. by rewrite Hq. Qed.

Lemma uniq_get_id_fresh s :
  reclaimed_ids s = [] →
  get_id s = (Return (next_id s), {| next_id := wrap_int (next_id s + 1);
                                     used_ids := {[next_id s]} ∪ used_ids s;
                                     reclaimed_ids := [] |}).
Proof.
  intros Hq. unfold get_id, mbind, M_bind, gets. rewrite Hq. cbn.
  unfold set_used_ids, set_next_id. cbn. by rewrite Hq.
Qed.

Lemma uniq_reclaim_used s id :
  id ∈ used_ids s →
  reclaim_id id s = (Return (), {| next_id := next_id s;
                                   used_ids := used_ids s ∖ {[id]};
                                   reclaimed_ids := reclaimed_ids s ++ [id] |}).
Proof.
  intros Hin. unfold reclaim_id, mbind, M_bind, gets.
  rewrite decide_False; [done|]. by intros ?.
Qed.

Lemma uniq_reclaim_unused s id :
  id ∉ used_ids s → reclaim_id id s = (Throw InvalidReclaim, s).
Proof.
  intros Hin. unfold reclaim_id, mbind, M_bind, gets. by rewrite decide_True.
Qed.

Lemma uniq_fresh_run (n : nat) : ∀ s,
  reclaimed_ids s = [] →
  INT_MIN ≤ next_id s →
  next_id s + Z.of_nat n ≤ INT_MAX →
  ∃ s', repeat_call n get_id s = (Return (seqZ (next_id s) (Z.of_nat n)), s')
        ∧ next_id s' = next_id s + Z.of_nat n
        ∧ reclaimed_ids s' = []
        ∧ used_ids s' = list_to_set (seqZ (next_id s) (Z.of_nat n)) ∪ used_ids s.
Proof.
  induction n as [|n IH]; intros s Hq Hlo Hhi.
  - exists s. cbn. split_and!; [done|lia|done|].
    change (seqZ (next_id s) (Z.of_nat 0)) with (@nil Z).
    by rewrite list_to_set_nil, (left_id_L ∅ (∪)).
  - rewrite Nat2Z.inj_succ in *.
    cbn [repeat_call]. unfold mbind at 1, M_bind at 1.
    rewrite (uniq_get_id_fresh s Hq).
    rewrite wrap_int_small by lia.
    destruct (IH {| next_id := next_id s + 1;
                    used_ids := {[next_id s]} ∪ used_ids s;
                    reclaimed_ids := [] |})
      as (s' & Hrun & Hnext & Hq' & Hused); [done|cbn; lia|cbn; lia|].
    cbn [next_id used_ids] in Hrun, Hnext, Hused.
    exists s'. unfold mbind, M_bind. rewrite Hrun.
    rewrite (seqZ_cons (next_id s) (Z.succ (Z.of_nat n))) by lia.
    rewrite Z.pred_succ.
    replace (Z.succ (next_id s)) with (next_id s + 1) by lia.
    split_and!; [done|lia|done|]. rewrite Hused. cbn [list_to_set foldr].
    rewrite (assoc_L (∪)). f_equal. apply (comm_L (∪)).
Qed.

End strict.

Lemma idgen_last_fresh_spec :
  IdGenerator.next_id idgen_last_fresh = 4294967294
  ∧ IdGenerator.reclaimed_ids idgen_last_fresh = [].
Proof.
  destruct (idgen_fresh_run (Z.to_nat 4294967294) IdGenerator.initial)
    as (s' & Hrun & Hnext & Hq & _).
  - reflexivity.
  - change (IdGenerator.next_id IdGenerator.initial) with 0. lia.
  - change (IdGenerator.next_id IdGenerator.initial) with 0.
    rewrite Z2Nat.id by lia. unfold UINT_MAX. lia.
  - unfold idgen_last_fresh, exec. rewrite Hrun. cbn [snd].
    split; [|done]. rewrite Hnext.
    change (IdGenerator.next_id IdGenerator.initial) with 0.
    rewrite Z2Nat.id by lia. lia.
Qed.

Lemma uniq_last_fresh_spec :
  UniqueIDGenerator.next_id uniq_last_fresh = 2147483646
  ∧ UniqueIDGenerator.reclaimed_ids uniq_last_fresh = [].
Proof.
  destruct (uniq_fresh_run (Z.to_nat 2147483646) UniqueIDGenerator.initial)
    as (s' & Hrun & Hnext & Hq & _).
  - reflexivity.
  - change (UniqueIDGenerator.next_id UniqueIDGenerator.initial) with 0.
    unfold INT_MIN. lia.
  - change (UniqueIDGenerator.next_id UniqueIDGenerator.initial) with 0.
    rewrite Z2Nat.id by lia. unfold INT_MAX. lia.
  - unfold uniq_last_fresh, exec. rewrite Hrun. cbn [snd].
    split; [|done]. rewrite Hnext.
    change (UniqueIDGenerator.next_id UniqueIDGenerator.initial) with 0.
    rewrite Z2Nat.id by lia. lia.
Qed.

(** C3, as stated, fails at the edge of the counter: after [UINT_MAX - 1]
    allocations (empty pool, [next_id = UINT_MAX - 1]), [IdGenerator.get_id]
    returns [next_id] but leaves the counter at [0], not at [next_id + 1]. *)
Lemma unbounded_fresh_counterexample :
  IdGenerator.reclaimed_ids idgen_last_fresh = []
  ∧ IdGenerator.next_id idgen_last_fresh = 4294967294
  ∧ (IdGenerator.get_id idgen_last_fresh).1 = Return 4294967294
  ∧ IdGenerator.next_id (IdGenerator.get_id idgen_last_fresh).2 = 0
  ∧ IdGenerator.next_id (IdGenerator.get_id idgen_last_fresh).2
    ≠ IdGenerator.next_id idgen_last_fresh + 1.
Proof.
  destruct idgen_last_fresh_spec as [Hnext Hq].
  rewrite (idgen_get_id_fresh _ Hq), Hnext. cbn [fst snd IdGenerator.next_id].
  split_and!; [exact Hq|reflexivity..|discriminate].
Qed.

(** C3 (amended). In both unbounded allocators: a non-empty pool makes
    [get_id] return its front; [reclaim_id] of a used identifier appends it
    at the back, so that with an empty pool reclaiming a used [X] makes the
    next [get_id] return [X], and reclaiming used [X] then [Y] makes the next
    two return [X] then [Y]; with an empty pool [get_id] returns [next_id],
    and the counter becomes [next_id + 1] as long as that stays below
    [UINT_MAX] ([IdGenerator], which otherwise resets it to 0) or within
    [int] ([UniqueIDGenerator]). *)
Theorem unbounded_reuse_then_fresh :
  (* IdGenerator *)
  (∀ s front rest,
     IdGenerator.reclaimed_ids s = front :: rest →
     IdGenerator.get_id s
     = (Return front, {| IdGenerator.next_id := IdGenerator.next_id s;
                         IdGenerator.used_ids := {[front]} ∪ IdGenerator.used_ids s;
                         IdGenerator.reclaimed_ids := rest |}))
  ∧ (∀ s X,
       X ∈ IdGenerator.used_ids s →
       IdGenerator.reclaimed_ids (exec (IdGenerator.reclaim_id X) s)
       = IdGenerator.reclaimed_ids s ++ [X])
  ∧ (∀ s X,
       IdGenerator.reclaimed_ids s = [] → X ∈ IdGenerator.used_ids s →
       (IdGenerator.get_id (exec (IdGenerator.reclaim_id X) s)).1 = Return X)
  ∧ (∀ s X Y,
       IdGenerator.reclaimed_ids s = [] →
       X ∈ IdGenerator.used_ids s → Y ∈ IdGenerator.used_ids s → X ≠ Y →
       (repeat_call 2 IdGenerator.get_id
          (exec (IdGenerator.reclaim_id Y) (exec (IdGenerator.reclaim_id X) s))).1
       = Return [X; Y])
  ∧ (∀ s,
       IdGenerator.reclaimed_ids s = [] →
       (IdGenerator.get_id s).1 = Return (IdGenerator.next_id s)
       ∧ IdGenerator.next_id (IdGenerator.get_id s).2
         = (if decide (wrap_uint (IdGenerator.next_id s + 1) = UINT_MAX)
            then 0 else wrap_uint (IdGenerator.next_id s + 1))
       ∧ (0 ≤ IdGenerator.next_id s → IdGenerator.next_id s + 1 < UINT_MAX →
          IdGenerator.next_id (IdGenerator.get_id s).2
          = IdGenerator.next_id s + 1))
  (* UniqueIDGenerator *)
  ∧ (∀ s front rest,
       UniqueIDGenerator.reclaimed_ids s = front :: rest →
       UniqueIDGenerator.get_id s
       = (Return front,
          {| UniqueIDGenerator.next_id := UniqueIDGenerator.next_id s;
             UniqueIDGenerator.used_ids := {[front]} ∪ UniqueIDGenerator.used_ids s;
             UniqueIDGenerator.reclaimed_ids := rest |}))
  ∧ (∀ s X,
       X ∈ UniqueIDGenerator.used_ids s →
       UniqueIDGenerator.reclaimed_ids (exec (UniqueIDGenerator.reclaim_id X) s)
       = UniqueIDGenerator.reclaimed_ids s ++ [X])
  ∧ (∀ s X,
       UniqueIDGenerator.reclaimed_ids s = [] →
       X ∈ UniqueIDGenerator.used_ids s →
       (UniqueIDGenerator.get_id (exec (UniqueIDGenerator.reclaim_id X) s)).1
       = Return X)
  ∧ (∀ s X Y,
       UniqueIDGenerator.reclaimed_ids s = [] →
       X ∈ UniqueIDGenerator.used_ids s → Y ∈ UniqueIDGenerator.used_ids s →
       X ≠ Y →
       (repeat_call 2 UniqueIDGenerator.get_id
          (exec (UniqueIDGenerator.reclaim_id Y)
                (exec (UniqueIDGenerator.reclaim_id X) s))).1
       = Return [X; Y])
  ∧ (∀ s,
       UniqueIDGenerator.reclaimed_ids s = [] →
       (UniqueIDGenerator.get_id s).1 = Return (UniqueIDGenerator.next_id s)
       ∧ UniqueIDGenerator.next_id (UniqueIDGenerator.get_id s).2
         = wrap_int (UniqueIDGenerator.next_id s + 1)
       ∧ (INT_MIN ≤ UniqueIDGenerator.next_id s < INT_MAX →
          UniqueIDGenerator.next_id (UniqueIDGenerator.get_id s).2
          = UniqueIDGenerator.next_id s + 1)).
Proof.
  split_and!.
  - apply idgen_get_id_reuse.
  - intros s X HX. unfold exec. by rewrite idgen_reclaim_used.
  - intros s X Hq HX. unfold exec. rewrite idgen_reclaim_used by done. cbn.
    erewrite idgen_get_id_reuse; [done|]. cbn. by rewrite Hq.
  - intros s X Y Hq HX HY Hne. unfold exec.
    rewrite (idgen_reclaim_used s X HX). cbn.
    rewrite idgen_reclaim_used by (cbn; set_solver). cbn. rewrite Hq. cbn.
    unfold mbind, M_bind.
    erewrite idgen_get_id_reuse by (cbn; reflexivity).
    by erewrite idgen_get_id_reuse by (cbn; reflexivity).
  - intros s Hq. rewrite (idgen_get_id_fresh s Hq). cbn.
    split_and!; [done|done|]. intros Hlo Hhi.
    rewrite wrap_uint_small by (unfold UINT_MAX in *; lia).
    rewrite decide_False; [done|lia].
  - apply uniq_get_id_reuse.
  - intros s X HX. unfold exec. by rewrite uniq_reclaim_used.
  - intros s X Hq HX. unfold exec. rewrite uniq_reclaim_used by done. cbn.
    erewrite uniq_get_id_reuse; [done|]. cbn. by rewrite Hq.
  - intros s X Y Hq HX HY Hne. unfold exec.
    rewrite (uniq_reclaim_used s X HX). cbn.
    rewrite uniq_reclaim_used by (cbn; set_solver). cbn. rewrite Hq. cbn.
    unfold mbind, M_bind.
    erewrite uniq_get_id_reuse by (cbn; reflexivity).
    by erewrite uniq_get_id_reuse by (cbn; reflexivity).
  - intros s Hq. rewrite (uniq_get_id_fresh s Hq). cbn.
    split_and!; [done|done|]. intros Hr.
    apply wrap_int_small. unfold INT_MIN, INT_MAX in *. lia.
Qed.

Lemma unbounded_reuse_then_fresh_witness :
  IdGenerator.get_id idgen_busy
  = (Return 8, {| IdGenerator.next_id := 9;
                  IdGenerator.used_ids := {[8]} ∪ {[3; 5]};
                  IdGenerator.reclaimed_ids := [] |}).
Proof.
  apply (proj1 unbounded_reuse_then_fresh idgen_busy 8 []). reflexivity.
Defined.

(** C6, as stated, fails for the deprecated allocator: after [INT_MAX - 1]
    allocations (empty pool, [next_id = INT_MAX - 1]),
    [UniqueIDGenerator.get_id] leaves the counter at [INT_MAX], the largest
    [int], and does not take it back to 0. *)
Lemma unbounded_wrap_counterexample :
  UniqueIDGenerator.reclaimed_ids uniq_last_fresh = []
  ∧ UniqueIDGenerator.next_id uniq_last_fresh = 2147483646
  ∧ (UniqueIDGenerator.get_id uniq_last_fresh).1 = Return 2147483646
  ∧ UniqueIDGenerator.next_id (UniqueIDGenerator.get_id uniq_last_fresh).2
    = INT_MAX
  ∧ UniqueIDGenerator.next_id (UniqueIDGenerator.get_id uniq_last_fresh).2 ≠ 0.
Proof.
  destruct uniq_last_fresh_spec as [Hnext Hq].
  rewrite (uniq_get_id_fresh _ Hq), Hnext.
  cbn [fst snd UniqueIDGenerator.next_id].
  split_and!; [exact Hq|reflexivity..|discriminate].
Qed.

(** C6 (amended). [IdGenerator]: when the incremented counter equals
    [UINT_MAX], [get_id] resets it to 0 and returns the identifier as usual,
    no exception; after a fresh allocation the counter is never [UINT_MAX].
    [UniqueIDGenerator] has no such reset: when the incremented counter
    equals [INT_MAX] it stays there, and [get_id] returns as usual. *)
Theorem unbounded_wrap_spec :
  (∀ s,
     IdGenerator.reclaimed_ids s = [] →
     wrap_uint (IdGenerator.next_id s + 1) = UINT_MAX →
     IdGenerator.get_id s
     = (Return (IdGenerator.next_id s),
        {| IdGenerator.next_id := 0;
           IdGenerator.used_ids := {[IdGenerator.next_id s]} ∪ IdGenerator.used_ids s;
           IdGenerator.reclaimed_ids := [] |}))
  ∧ (∀ s,
       IdGenerator.reclaimed_ids s = [] →
       IdGenerator.next_id (IdGenerator.get_id s).2 ≠ UINT_MAX)
  ∧ (∀ s,
       UniqueIDGenerator.reclaimed_ids s = [] →
       UniqueIDGenerator.next_id s + 1 = INT_MAX →
       UniqueIDGenerator.get_id s
       = (Return (UniqueIDGenerator.next_id s),
          {| UniqueIDGenerator.next_id := INT_MAX;
             UniqueIDGenerator.used_ids :=
               {[UniqueIDGenerator.next_id s]} ∪ UniqueIDGenerator.used_ids s;
             UniqueIDGenerator.reclaimed_ids := [] |})).
Proof.
  split_and!.
  - intros s Hq Hmax. rewrite (idgen_get_id_fresh s Hq).
    by rewrite decide_True.
  - intros s Hq. rewrite (idgen_get_id_fresh s Hq). cbn.
    case_decide; [discriminate|done].
  - intros s Hq Hmax. rewrite (uniq_get_id_fresh s Hq). rewrite Hmax.
    by rewrite wrap_int_small.
Qed.

Lemma unbounded_wrap_spec_witness :
  IdGenerator.get_id idgen_edge
  = (Return 4294967294,
     {| IdGenerator.next_id := 0;
        IdGenerator.used_ids := {[4294967294]} ∪ ∅;
        IdGenerator.reclaimed_ids := [] |}).
Proof.
  apply (proj1 unbounded_wrap_spec idgen_edge); reflexivity.
Defined.

(** C7. [get_id] of either unbounded allocator returns from every state: no
    exception, an identifier taken from the front of the pool or, when the
    pool is empty, from the counter, and that identifier is in the used set
    afterwards. *)
Theorem unbounded_get_id_total :
  (∀ s : IdGenerator.state,
     ∃ id s',
       IdGenerator.get_id s = (Return id, s')
       ∧ id ∈ IdGenerator.used_ids s'
       ∧ (head (IdGenerator.reclaimed_ids s) = Some id
          ∨ IdGenerator.reclaimed_ids s = [] ∧ id = IdGenerator.next_id s))
  ∧ (∀ s : UniqueIDGenerator.state,
       ∃ id s',
         UniqueIDGenerator.get_id s = (Return id, s')
         ∧ id ∈ UniqueIDGenerator.used_ids s'
         ∧ (head (UniqueIDGenerator.reclaimed_ids s) = Some id
            ∨ UniqueIDGenerator.reclaimed_ids s = []
              ∧ id = UniqueIDGenerator.next_id s)).
Proof.
  split; intros s.
  - destruct (IdGenerator.reclaimed_ids s) as [|front rest] eqn:Hq.
    + eexists _, _. rewrite (idgen_get_id_fresh s Hq).
      split_and!; [done|cbn; set_solver|by right].
    + eexists _, _. rewrite (idgen_get_id_reuse s front rest Hq).
      split_and!; [done|cbn; set_solver|by left].
  - destruct (UniqueIDGenerator.reclaimed_ids s) as [|front rest] eqn:Hq.
    + eexists _, _. rewrite (uniq_get_id_fresh s Hq).
      split_and!; [done|cbn; set_solver|by right].
    + eexists _, _. rewrite (uniq_get_id_reuse s front rest Hq).
      split_and!; [done|cbn; set_solver|by left].
Qed.

(** C9. Reclaiming an identifier that is not in use: [IdGenerator] returns
    and changes nothing; [UniqueIDGenerator] throws [InvalidReclaim] and
    changes nothing (so the sizes of the used set and of the pool are as
    before).  Reclaiming an identifier that is in use: both remove it from
    the used set and append it to the pool. *)
Theorem unbounded_reclaim_spec :
  (∀ s id,
     id ∉ IdGenerator.used_ids s →
     IdGenerator.reclaim_id id s = (Return (), s))
  ∧ (∀ s id,
       id ∉ UniqueIDGenerator.used_ids s →
       UniqueIDGenerator.reclaim_id id s
       = (Throw UniqueIDGenerator.InvalidReclaim, s))
  ∧ (∀ s id,
       id ∈ IdGenerator.used_ids s →
       IdGenerator.reclaim_id id s
       = (Return (),
          {| IdGenerator.next_id := IdGenerator.next_id s;
             IdGenerator.used_ids := IdGenerator.used_ids s ∖ {[id]};
             IdGenerator.reclaimed_ids := IdGenerator.reclaimed_ids s ++ [id] |}))
  ∧ (∀ s id,
       id ∈ UniqueIDGenerator.used_ids s →
       UniqueIDGenerator.reclaim_id id s
       = (Return (),
          {| UniqueIDGenerator.next_id := UniqueIDGenerator.next_id s;
             UniqueIDGenerator.used_ids := UniqueIDGenerator.used_ids s ∖ {[id]};
             UniqueIDGenerator.reclaimed_ids :=
               UniqueIDGenerator.reclaimed_ids s ++ [id] |})).
Proof.
  split_and!.
  - apply idgen_reclaim_unused.
  - apply uniq_reclaim_unused.
  - apply idgen_reclaim_used.
  - apply uniq_reclaim_used.
Qed.

Lemma unbounded_reclaim_spec_witness :
  UniqueIDGenerator.reclaim_id 8 uniq_busy
  = (Throw UniqueIDGenerator.InvalidReclaim, uniq_busy).
Proof.
  apply (proj1 (proj2 unbounded_reclaim_spec) uniq_busy 8).
  vm_compute. intros H. discriminate H.
Defined.

(** ** The process-wide counter *)

Section global.
Import GlobalUIDGenerator.

Implicit Types (s : state) (n : nat).

Lemma global_get_id_spec s :
  get_id s = (Return (wrap_int (current_id s + 1)),
              {| current_id := wrap_int (current_id s + 1);
                 last_generated_id := wrap_int (current_id s + 1) |}).
Proof. reflexivity. Qed.

Lemma global_repeat_get_id n : ∀ s,
  INT_MIN ≤ current_id s + 1 →
  current_id s + Z.of_nat n ≤ INT_MAX →
  ∃ s', repeat_call n get_id s
        = (Return (seqZ (current_id s + 1) (Z.of_nat n)), s')
        ∧ current_id s' = current_id s + Z.of_nat n
        ∧ (n ≠ O → last_generated_id s' = current_id s + Z.of_nat n).
Proof.
  induction n as [|n IH]; intros s Hlo Hhi.
  - exists s. cbn. split_and!; [done|lia|done].
  - rewrite Nat2Z.inj_succ in *.
    cbn [repeat_call]. unfold mbind at 1, M_bind at 1.
    rewrite global_get_id_spec.
    rewrite wrap_int_small by lia.
    destruct (IH {| current_id := current_id s + 1;
                    last_generated_id := current_id s + 1 |})
      as (s' & Hrun & Hcur & Hlast).
    { cbn [current_id]. unfold INT_MIN in *. lia. }
    { cbn [current_id]. lia. }
    cbn [current_id last_generated_id] in Hrun, Hcur, Hlast.
    exists s'. unfold mbind, M_bind. rewrite Hrun.
    split_and!.
    + rewrite (seqZ_cons (current_id s + 1) (Z.succ (Z.of_nat n))) by lia.
      rewrite Z.pred_succ. unfold mret, M_ret.
      by replace (Z.succ (current_id s + 1)) with (current_id s + 1 + 1) by lia.
    + lia.
    + intros _. destruct n as [|n]; [|rewrite Hlast by done; lia].
      cbn in Hrun. injection Hrun as <-. cbn. lia.
Qed.

Lemma global_repeat_get_id_int n : ∀ s ids,
  (repeat_call n get_id s).1 = Return ids → Forall is_int ids.
Proof.
  induction n as [|n IH]; intros s ids.
  - cbn. intros [= <-]. constructor.
  - cbn [repeat_call]. unfold mbind at 1, M_bind at 1.
    rewrite global_get_id_spec. unfold mbind, M_bind.
    destruct (repeat_call n get_id _) as [[xs|e] s'] eqn:Hrun; cbn;
      [|discriminate].
    intros [= <-]. constructor; [apply wrap_int_range|].
    eapply IH. by rewrite Hrun.
Qed.

(** C8, as stated, fails once the counter leaves [int]: of [2^31] calls in
    a row the last cannot return [2^31], which no [int] holds. *)
Lemma global_counter_counterexample :
  (repeat_call (Z.to_nat 2147483648) get_id initial).1
  ≠ Return (seqZ 1 2147483648).
Proof.
  intros Hrun. apply global_repeat_get_id_int in Hrun.
  rewrite Forall_forall in Hrun.
  assert (is_int 2147483648) as [_ Hle].
  { apply Hrun. apply elem_of_seqZ. lia. }
  unfold INT_MAX in Hle. lia.
Qed.

(** C8 (amended). From the zero-initialised statics, the first call of
    [get_id] returns 1, and [n] calls in a row, for [n] up to [INT_MAX],
    return [1, 2, ..., n], a strictly increasing sequence. *)
Theorem global_counter_sequence n :
  Z.of_nat n ≤ INT_MAX →
  (get_id initial).1 = Return 1
  ∧ (repeat_call n get_id initial).1 = Return (seqZ 1 (Z.of_nat n))
  ∧ (∀ (i j : nat) (x y : Z),
       seqZ 1 (Z.of_nat n) !! i = Some x →
       seqZ 1 (Z.of_nat n) !! j = Some y →
       (i < j)%nat → x < y).
Proof.
  intros Hn. split_and!.
  - reflexivity.
  - destruct (global_repeat_get_id n initial) as (s' & Hrun & _);
      [cbn; unfold INT_MIN; lia|cbn; lia|].
    by rewrite Hrun.
  - intros i j x y Hx%lookup_seqZ Hy%lookup_seqZ Hij. lia.
Qed.

Lemma global_counter_sequence_witness :
  (get_id initial).1 = Return 1
  ∧ (repeat_call 4 get_id initial).1 = Return (seqZ 1 (Z.of_nat 4))
  ∧ (∀ (i j : nat) (x y : Z),
       seqZ 1 (Z.of_nat 4) !! i = Some x →
       seqZ 1 (Z.of_nat 4) !! j = Some y →
       (i < j)%nat → x < y).
Proof. apply (global_counter_sequence 4). vm_compute. discriminate. Defined.

(** C10. [last_generated_id] starts at 0; every call of [get_id] (named
    [generate] in the first revision) leaves in it, and in [current_id], the
    very value it returns.  The class has no other member function. *)
Theorem global_last_generated_id :
  last_generated_id initial = 0
  ∧ (∀ s, ∃ v,
       get_id s = (Return v, {| current_id := v; last_generated_id := v |}))
  ∧ (∀ s, ∃ v,
       generate s = (Return v, {| current_id := v; last_generated_id := v |}))
  ∧ (∀ n s ids s',
       repeat_call (S n) get_id s = (Return ids, s') →
       last ids = Some (last_generated_id s')
       ∧ last_generated_id s' = current_id s').
Proof.
  split_and!; [done|by eexists|by eexists|].
  induction n as [|n IH]; intros s ids s'.
  - cbn. intros [= <- <-]. done.
  - remember (S n) as m eqn:Hm. cbn [repeat_call].
    unfold mbind at 1, M_bind at 1. rewrite global_get_id_spec.
    unfold mbind, M_bind.
    destruct (repeat_call m get_id _) as [[xs|e] s1] eqn:Hrun; cbn;
      [|discriminate].
    intros [= <- <-]. subst m. apply IH in Hrun as [Hlast Heq].
    split; [|done]. destruct xs as [|x xs]; [discriminate|]. done.
Qed.

End global.

(** ** The scenario of the specification *)

Example bounded_scenario :
  ∃ s0,
    BoundedUniqueIDGenerator.construct 3 = inr s0
    ∧ (repeat_call 3 BoundedUniqueIDGenerator.get_id s0).1 = Return [0; 1; 2]
    ∧ (BoundedUniqueIDGenerator.get_id
         (exec (BoundedUniqueIDGenerator.reclaim_id 1)
            (exec (repeat_call 3 BoundedUniqueIDGenerator.get_id) s0))).1
      = Return 1
    ∧ (BoundedUniqueIDGenerator.get_id
         (exec BoundedUniqueIDGenerator.get_id
            (exec (BoundedUniqueIDGenerator.reclaim_id 1)
               (exec (repeat_call 3 BoundedUniqueIDGenerator.get_id) s0)))).1
      = Throw BoundedUniqueIDGenerator.CapacityExhausted.
Proof. eexists. split_and!; [reflexivity|by vm_compute..]. Qed.

Example bounded_construct_rejects :
  BoundedUniqueIDGenerator.construct 0
  = inl BoundedUniqueIDGenerator.InvalidCapacity
  ∧ BoundedUniqueIDGenerator.construct (-5)
    = inl BoundedUniqueIDGenerator.InvalidCapacity.
Proof. split; reflexivity. Qed.

Example bounded_reclaim_message :
  (BoundedUniqueIDGenerator.reclaim_id (-5) bounded_two).1
  = Throw (invalid_argument "Invalid or already reclaimed ID: -5").
Proof. reflexivity. Qed.

Example idgen_first_ids :
  (repeat_call 3 IdGenerator.get_id IdGenerator.initial).1 = Return [0; 1; 2].
Proof. by vm_compute. Qed.

Example idgen_edge_wraps :
  (repeat_call 2 IdGenerator.get_id idgen_edge).1 = Return [4294967294; 0].
Proof. by vm_compute. Qed.

Example uniq_edge_keeps_counting :
  (repeat_call 2 UniqueIDGenerator.get_id uniq_edge).1
  = Return [2147483646; 2147483647].
Proof. by vm_compute. Qed.

Example idgen_double_reclaim_is_silent :
  IdGenerator.reclaim_id 3 (exec (IdGenerator.reclaim_id 3) idgen_busy)
  = (Return (), exec (IdGenerator.reclaim_id 3) idgen_busy).
Proof. by vm_compute. Qed.

Example uniq_double_reclaim_throws :
  (UniqueIDGenerator.reclaim_id 3
     (exec (UniqueIDGenerator.reclaim_id 3) uniq_busy)).1
  = Throw UniqueIDGenerator.InvalidReclaim.
Proof. by vm_compute. Qed.

Example global_first_calls :
  (repeat_call 3 GlobalUIDGenerator.get_id GlobalUIDGenerator.initial).1
  = Return [1; 2; 3].
Proof. by vm_compute. Qed.

(** * Further properties of the bounded allocator *)

Section bounded_reachable.
Import BoundedUniqueIDGenerator.

Implicit Types (s : state) (id : Z) (cs : list call).

Lemma run_preserves (P : state → Prop) :
  (∀ s, P s → P (exec get_id s)) →
  (∀ s id, P s → P (exec (reclaim_id id) s)) →
  ∀ cs s, P s → P (run cs s).
Proof.
  intros Hget Hrec. induction cs as [|c cs IH]; intros s Hs; [done|].
  cbn. apply IH. destruct c as [|id]; cbn.
  - specialize (Hget s Hs). unfold exec in *. unfold mbind, M_bind.
    by destruct (get_id s) as [[x|e] s'].
  - by apply Hrec.
Qed.

Lemma bounded_universe_get_id C s :
  bounded_universe C s → bounded_universe C (exec get_id s).
Proof.
  intros Huni. unfold exec.
  destruct (available_ids s) as [|id rest] eqn:Hq.
  - by rewrite (get_id_empty s Hq).
  - rewrite (get_id_front s id rest Hq). cbn. intros x. cbn.
    rewrite <- (Huni x), Hq, elem_of_union, elem_of_singleton, elem_of_cons.
    tauto.
Qed.

Lemma bounded_universe_reclaim_id C s id :
  bounded_universe C s → bounded_universe C (exec (reclaim_id id) s).
Proof.
  intros Huni. unfold exec.
  destruct (decide (id < 0 ∨ max_value s ≤ id ∨ id ∉ used_ids s)) as [Hbad|Hok].
  - by rewrite (reclaim_id_invalid s id Hbad).
  - rewrite (reclaim_id_valid s id Hok). cbn.
    assert (id ∈ used_ids s) as Hin.
    { destruct (decide (id ∈ used_ids s)); [done|tauto]. }
    intros x. cbn.
    rewrite <- (Huni x), elem_of_difference, elem_of_singleton, elem_of_app,
      list_elem_of_singleton.
    destruct (decide (x = id)) as [->|Hne]; tauto.
Qed.

Lemma bounded_reachable C s0 cs :
  construct C = inr s0 →
  bounded_inv C (run cs s0) ∧ bounded_universe C (run cs s0).
Proof.
  intros Hnew. split.
  - apply bounded_inv_run. by apply bounded_inv_construct.
  - apply run_preserves.
    + apply bounded_universe_get_id.
    + intros s id. apply bounded_universe_reclaim_id.
    + destruct (decide (C ≤ 0)) as [Hle|Hgt].
      * rewrite construct_nonpositive in Hnew by done. discriminate.
      * rewrite construct_positive in Hnew by lia. injection Hnew as <-.
        intros x. cbn. rewrite elem_of_seqZ, elem_of_empty.
        split; [intros [[]|?]; lia|intros ?; right; lia].
Qed.

(** X1. In every state a bounded allocator of capacity [C] can reach, an
    identifier that [get_id] returns lies in [[0, C)], was not in use before
    the call and is in use after it, and is gone from the pool. *)
Theorem bounded_get_id_fresh C s0 cs id s' :
  construct C = inr s0 →
  get_id (run cs s0) = (Return id, s') →
  (0 ≤ id < C)
  ∧ (id ∉ used_ids (run cs s0))
  ∧ used_ids s' = {[id]} ∪ used_ids (run cs s0)
  ∧ (id ∉ available_ids s').
Proof.
  intros Hnew Hget.
  destruct (bounded_reachable C s0 cs Hnew)
    as [(Hmax & Hnd & Hdisj & Hsize) Huni].
  destruct (available_ids (run cs s0)) as [|front rest] eqn:Hq.
  - rewrite (get_id_empty _ Hq) in Hget. discriminate.
  - rewrite (get_id_front _ front rest Hq) in Hget.
    injection Hget as <- <-. cbn.
    apply NoDup_cons in Hnd as [Hfront Hrest].
    assert (0 ≤ front < C) as Hrange.
    { apply (Huni front). right. rewrite Hq. left. }
    split; [exact Hrange|]. split_and!; [|done|done].
    intros Hin. apply (Hdisj front Hin). left.
Qed.

Lemma bounded_get_id_fresh_witness :
  (0 ≤ 1 < 2)
  ∧ (1 ∉ used_ids (run sample_calls bounded_two))
  ∧ used_ids (get_id (run sample_calls bounded_two)).2
    = {[1]} ∪ used_ids (run sample_calls bounded_two)
  ∧ (1 ∉ available_ids (get_id (run sample_calls bounded_two)).2).
Proof.
  apply (bounded_get_id_fresh 2 bounded_two sample_calls 1
           (get_id (run sample_calls bounded_two)).2); reflexivity.
Defined.

(** X2. In every reachable state of a bounded allocator of capacity [C],
    [get_id] throws [CapacityExhausted] exactly when [C] identifiers are in
    use. *)
Theorem bounded_get_id_throws_iff_full C s0 cs :
  construct C = inr s0 →
  (get_id (run cs s0)).1 = Throw CapacityExhausted
  ↔ Z.of_nat (size (used_ids (run cs s0))) = C.
Proof.
  intros Hnew.
  destruct (bounded_reachable C s0 cs Hnew)
    as [(Hmax & Hnd & Hdisj & Hsize) _].
  assert (0 < C).
  { destruct (decide (C ≤ 0)); [|lia].
    rewrite construct_nonpositive in Hnew by done. discriminate. }
  destruct (available_ids (run cs s0)) as [|front rest] eqn:Hq.
  - rewrite (get_id_empty _ Hq). cbn in *. split; [lia|done].
  - rewrite (get_id_front _ front rest Hq). cbn in *.
    split; [discriminate|lia].
Qed.

Lemma bounded_get_id_throws_iff_full_witness :
  (get_id (run [call_get_id; call_get_id] bounded_two)).1
  = Throw CapacityExhausted
  ↔ Z.of_nat (size (used_ids (run [call_get_id; call_get_id] bounded_two))) = 2.
Proof.
  apply (bounded_get_id_throws_iff_full 2 bounded_two [call_get_id; call_get_id]).
  reflexivity.
Defined.

(** X3. In every reachable state of a bounded allocator of capacity [C],
    [get_free_ids] and [get_used_ids] list every identifier of [[0, C)]
    exactly once between them, and nothing else. *)
Theorem bounded_introspection_partition C s0 cs :
  construct C = inr s0 →
  NoDup (get_free_ids (run cs s0) ++ get_used_ids (run cs s0))
  ∧ (∀ x, x ∈ get_free_ids (run cs s0) ++ get_used_ids (run cs s0)
          ↔ 0 ≤ x < C)
  ∧ Z.of_nat (length (get_free_ids (run cs s0) ++ get_used_ids (run cs s0)))
    = C.
Proof.
  intros Hnew.
  destruct (bounded_reachable C s0 cs Hnew)
    as [(Hmax & Hnd & Hdisj & Hsize) Huni].
  assert (0 < C).
  { destruct (decide (C ≤ 0)); [|lia].
    rewrite construct_nonpositive in Hnew by done. discriminate. }
  unfold get_free_ids, get_used_ids. split_and!.
  - apply NoDup_app. split_and!; [done| |apply NoDup_elements].
    intros x Hx Hel%elem_of_elements. by apply (Hdisj x).
  - intros x. rewrite elem_of_app, elem_of_elements, <- (Huni x). tauto.
  - rewrite length_app.
    change (length (elements (used_ids (run cs s0))))
      with (size (used_ids (run cs s0))).
    lia.
Qed.

Lemma bounded_introspection_partition_witness :
  NoDup (get_free_ids (run sample_calls bounded_two)
         ++ get_used_ids (run sample_calls bounded_two))
  ∧ (∀ x, x ∈ get_free_ids (run sample_calls bounded_two)
              ++ get_used_ids (run sample_calls bounded_two)
          ↔ 0 ≤ x < 2)
  ∧ Z.of_nat (length (get_free_ids (run sample_calls bounded_two)
                      ++ get_used_ids (run sample_calls bounded_two)))
    = 2.
Proof.
  apply (bounded_introspection_partition 2 bounded_two sample_calls).
  reflexivity.
Defined.

(** X4. Whatever the state and whatever the first call did, a second
    [reclaim_id] of the same identifier throws [InvalidReclaim] and changes
    nothing. *)
Theorem bounded_double_reclaim s id :
  reclaim_id id (exec (reclaim_id id) s)
  = (Throw (InvalidReclaim id), exec (reclaim_id id) s).
Proof.
  apply reclaim_id_invalid. unfold exec.
  destruct (decide (id < 0 ∨ max_value s ≤ id ∨ id ∉ used_ids s)) as [Hbad|Hok].
  - by rewrite (reclaim_id_invalid s id Hbad).
  - rewrite (reclaim_id_valid s id Hok). cbn. right. right.
    intros [_ Hne]%elem_of_difference. apply Hne. by apply elem_of_singleton.
Qed.

(** X5. In a reachable state with a non-empty pool, [get_id] followed by
    [reclaim_id] of the identifier it returned leaves the used set as it
    was and moves the front of the pool to its back. *)
Theorem bounded_get_then_reclaim C s0 cs id rest :
  construct C = inr s0 →
  available_ids (run cs s0) = id :: rest →
  get_id (run cs s0)
  = (Return id, exec get_id (run cs s0))
  ∧ reclaim_id id (exec get_id (run cs s0))
    = (Return (),
       {| max_value := max_value (run cs s0);
          next_id := next_id (run cs s0);
          available_ids := rest ++ [id];
          used_ids := used_ids (run cs s0) |}).
Proof.
  intros Hnew Hq.
  destruct (bounded_reachable C s0 cs Hnew)
    as [(Hmax & Hnd & Hdisj & Hsize) Huni].
  assert (0 ≤ id < C) as Hrange.
  { apply (Huni id). right. rewrite Hq. left. }
  assert (id ∉ used_ids (run cs s0)) as Hfree.
  { intros Hin. apply (Hdisj id Hin). rewrite Hq. left. }
  unfold exec. rewrite (get_id_front _ id rest Hq). cbn [fst snd].
  split; [done|].
  rewrite reclaim_id_valid; cbn.
  - do 2 f_equal. apply set_eq. intros x.
    rewrite elem_of_difference, elem_of_union, elem_of_singleton.
    split; [tauto|]. intros Hx. split; [by right|]. by intros ->.
  - rewrite Hmax. intros [?|[?|Hnot]]; [lia|lia|].
    apply Hnot. apply elem_of_union. left. by apply elem_of_singleton.
Qed.

Lemma bounded_get_then_reclaim_witness :
  get_id (run sample_calls bounded_two)
  = (Return 1, exec get_id (run sample_calls bounded_two))
  ∧ reclaim_id 1 (exec get_id (run sample_calls bounded_two))
    = (Return (),
       {| max_value := max_value (run sample_calls bounded_two);
          next_id := next_id (run sample_calls bounded_two);
          available_ids := [0] ++ [1];
          used_ids := used_ids (run sample_calls bounded_two) |}).
Proof.
  apply (bounded_get_then_reclaim 2 bounded_two sample_calls 1 [0]);
    reflexivity.
Defined.

End bounded_reachable.

(** * Further properties of [IdGenerator] *)

Section lenient_reachable.
Import IdGenerator.

Implicit Types (s : state) (id : Z) (cs : list call) (k : Z).

Lemma idgen_inv_initial : idgen_inv 0 initial.
Proof.
  unfold idgen_inv. cbn. split_and!; [lia|lia|constructor|done|].
  intros x. rewrite elem_of_empty, elem_of_nil. lia.
Qed.

Lemma idgen_inv_get_id k s :
  idgen_inv k s → k + 1 < UINT_MAX → idgen_inv (k + 1) (exec get_id s).
Proof.
  intros (Hnext & Hnd & Hdisj & Huni) Hk. unfold exec.
  destruct (reclaimed_ids s) as [|front rest] eqn:Hq.
  - rewrite (idgen_get_id_fresh s Hq). cbn.
    rewrite wrap_uint_small by (unfold UINT_MAX in *; lia).
    rewrite decide_False by lia.
    unfold idgen_inv. cbn. split_and!; [lia|lia|constructor| |].
    + intros x _. apply not_elem_of_nil.
    + intros x. specialize (Huni x).
      rewrite elem_of_union, elem_of_singleton, elem_of_nil in *.
      assert (0 ≤ x < next_id s + 1 ↔ x = next_id s ∨ 0 ≤ x < next_id s)
        as Har by lia.
      tauto.
  - rewrite (idgen_get_id_reuse s front rest Hq). cbn.
    apply NoDup_cons in Hnd as [Hfront Hrest].
    unfold idgen_inv. cbn. split_and!; [lia|lia|done| |].
    + intros x [->%elem_of_singleton|Hx]%elem_of_union; [done|].
      intros Hxr. apply (Hdisj x Hx). by right.
    + intros x. rewrite <- (Huni x), elem_of_union, elem_of_singleton,
        elem_of_cons. tauto.
Qed.

Lemma idgen_inv_reclaim_id k s id :
  idgen_inv k s → idgen_inv k (exec (reclaim_id id) s).
Proof.
  intros (Hnext & Hnd & Hdisj & Huni). unfold exec.
  destruct (decide (id ∈ used_ids s)) as [Hin|Hout].
  - rewrite (idgen_reclaim_used s id Hin). cbn.
    unfold idgen_inv. cbn. split_and!; [lia|lia| | |].
    + apply NoDup_app. split_and!; [done| |apply NoDup_singleton].
      intros x Hx ->%list_elem_of_singleton. by apply (Hdisj id).
    + intros x [Hx Hne]%elem_of_difference [Hxq|Hxi]%elem_of_app.
      * by apply (Hdisj x).
      * apply list_elem_of_singleton in Hxi. apply Hne.
        by apply elem_of_singleton.
    + intros x. rewrite <- (Huni x), elem_of_difference, elem_of_singleton,
        elem_of_app, list_elem_of_singleton.
      destruct (decide (x = id)) as [->|Hne]; tauto.
  - by rewrite (idgen_reclaim_unused s id Hout).
Qed.

Lemma idgen_inv_weaken k k' s : idgen_inv k s → k ≤ k' → idgen_inv k' s.
Proof. intros (Hnext & Hrest) Hk. split; [lia|done]. Qed.

Lemma idgen_inv_run cs : ∀ k s,
  idgen_inv k s →
  k + Z.of_nat (length cs) < UINT_MAX →
  idgen_inv (k + Z.of_nat (length cs)) (idgen_run cs s).
Proof.
  induction cs as [|c cs IH]; intros k s Hs Hk.
  - cbn. by rewrite Z.add_0_r.
  - cbn [length idgen_run foldl] in *. rewrite Nat2Z.inj_succ in *.
    replace (k + Z.succ (Z.of_nat (length cs)))
      with ((k + 1) + Z.of_nat (length cs)) by lia.
    apply IH; [|lia]. destruct c as [|id]; cbn [idgen_perform].
    + pose proof (idgen_inv_get_id k s Hs ltac:(lia)) as Hstep.
      unfold exec in *. unfold mbind, M_bind.
      by destruct (get_id s) as [[x|e] s'].
    + apply (idgen_inv_weaken k); [|lia]. by apply idgen_inv_reclaim_id.
Qed.

(** X6. After any sequence of fewer than [UINT_MAX] calls on a fresh
    [IdGenerator], the pool has no duplicates, no identifier is both used
    and in the pool, and the used set and the pool together hold exactly the
    identifiers below [next_id]. *)
Theorem idgen_conservation cs :
  Z.of_nat (length cs) < UINT_MAX →
  NoDup (reclaimed_ids (idgen_run cs initial))
  ∧ (∀ x, x ∈ used_ids (idgen_run cs initial) →
          x ∉ reclaimed_ids (idgen_run cs initial))
  ∧ (∀ x, (x ∈ used_ids (idgen_run cs initial)
           ∨ x ∈ reclaimed_ids (idgen_run cs initial))
          ↔ 0 ≤ x < next_id (idgen_run cs initial)).
Proof.
  intros Hlen.
  destruct (idgen_inv_run cs 0 initial idgen_inv_initial ltac:(lia))
    as (_ & Hnd & Hdisj & Huni).
  done.
Qed.

Lemma idgen_conservation_witness :
  NoDup (reclaimed_ids (idgen_run sample_calls initial))
  ∧ (∀ x, x ∈ used_ids (idgen_run sample_calls initial) →
          x ∉ reclaimed_ids (idgen_run sample_calls initial))
  ∧ (∀ x, (x ∈ used_ids (idgen_run sample_calls initial)
           ∨ x ∈ reclaimed_ids (idgen_run sample_calls initial))
          ↔ 0 ≤ x < next_id (idgen_run sample_calls initial)).
Proof. apply (idgen_conservation sample_calls). reflexivity. Defined.

(** X7. After any sequence of fewer than [UINT_MAX] calls on a fresh
    [IdGenerator], [get_id] returns an identifier that is not in use, and
    leaves it in use and out of the pool. *)
Theorem idgen_get_id_not_in_use cs id s' :
  Z.of_nat (length cs) < UINT_MAX →
  get_id (idgen_run cs initial) = (Return id, s') →
  (id ∉ used_ids (idgen_run cs initial))
  ∧ id ∈ used_ids s'
  ∧ (id ∉ reclaimed_ids s').
Proof.
  intros Hlen Hget.
  destruct (idgen_inv_run cs 0 initial idgen_inv_initial ltac:(lia))
    as (_ & Hnd & Hdisj & Huni).
  destruct (reclaimed_ids (idgen_run cs initial)) as [|front rest] eqn:Hq.
  - rewrite (idgen_get_id_fresh _ Hq) in Hget. injection Hget as <- <-. cbn.
    split_and!.
    + intros Hin. assert (0 ≤ next_id (idgen_run cs initial)
                          < next_id (idgen_run cs initial)); [|lia].
      apply Huni. by left.
    + apply elem_of_union. left. by apply elem_of_singleton.
    + apply not_elem_of_nil.
  - rewrite (idgen_get_id_reuse _ front rest Hq) in Hget.
    injection Hget as <- <-. cbn.
    apply NoDup_cons in Hnd as [Hfront Hrest]. split_and!; [|
      apply elem_of_union; left; by apply elem_of_singleton|done].
    intros Hin. apply (Hdisj front Hin). left.
Qed.

Lemma idgen_get_id_not_in_use_witness :
  (1 ∉ used_ids (idgen_run [call_get_id; call_get_id; call_reclaim_id 1] initial))
  ∧ 1 ∈ used_ids
          (get_id (idgen_run [call_get_id; call_get_id; call_reclaim_id 1]
                     initial)).2
  ∧ (1 ∉ reclaimed_ids
           (get_id (idgen_run [call_get_id; call_get_id; call_reclaim_id 1]
                      initial)).2).
Proof.
  apply (idgen_get_id_not_in_use [call_get_id; call_get_id; call_reclaim_id 1]
           1 (get_id (idgen_run [call_get_id; call_get_id; call_reclaim_id 1]
                        initial)).2); reflexivity.
Defined.

(** X8. Past the wrap the allocator hands out identifiers that are still
    held: with an empty pool, [next_id = UINT_MAX - 1] and [0] in use, the
    next [get_id] returns [UINT_MAX - 1] and the one after it returns [0],
    which is in use at that moment. *)
Theorem idgen_wrap_collision s :
  reclaimed_ids s = [] →
  next_id s = UINT_MAX - 1 →
  0 ∈ used_ids s →
  ∃ s1 s2,
    get_id s = (Return (UINT_MAX - 1), s1)
    ∧ get_id s1 = (Return 0, s2)
    ∧ 0 ∈ used_ids s1.
Proof.
  intros Hq Hnext Hzero. eexists _, _.
  rewrite (idgen_get_id_fresh s Hq), Hnext. split; [reflexivity|].
  rewrite idgen_get_id_fresh by done. cbn. split; [reflexivity|].
  apply elem_of_union. by right.
Qed.

Lemma idgen_wrap_collision_witness :
  ∃ s1 s2,
    get_id (set_used_ids (λ _, {[0]}) idgen_edge) = (Return (UINT_MAX - 1), s1)
    ∧ get_id s1 = (Return 0, s2)
    ∧ 0 ∈ used_ids s1.
Proof.
  apply (idgen_wrap_collision (set_used_ids (λ _, {[0]}) idgen_edge));
    [reflexivity|reflexivity|].
  cbn. by apply elem_of_singleton.
Defined.

(** X9. [is_used] follows the calls: the identifier [get_id] returns is
    used afterwards and every other identifier is as before; after
    [reclaim_id id], [id] is not used, whether it was or not, and every other
    identifier is as before. *)
Theorem idgen_is_used_spec :
  (∀ s id s',
     get_id s = (Return id, s') →
     is_used id s' = true ∧ ∀ x, x ≠ id → is_used x s' = is_used x s)
  ∧ (∀ s id,
       is_used id (exec (reclaim_id id) s) = false
       ∧ ∀ x, x ≠ id → is_used x (exec (reclaim_id id) s) = is_used x s).
Proof.
  split.
  - intros s id s' Hget.
    assert (used_ids s' = {[id]} ∪ used_ids s) as Hused.
    { destruct (reclaimed_ids s) as [|front rest] eqn:Hq.
      - rewrite (idgen_get_id_fresh s Hq) in Hget. by injection Hget as <- <-.
      - rewrite (idgen_get_id_reuse s front rest Hq) in Hget.
        by injection Hget as <- <-. }
    unfold is_used. rewrite Hused. split.
    + apply bool_decide_eq_true. rewrite elem_of_union, elem_of_singleton.
      by left.
    + intros x Hx. apply bool_decide_ext.
      rewrite elem_of_union, elem_of_singleton. tauto.
  - intros s id. unfold exec.
    destruct (decide (id ∈ used_ids s)) as [Hin|Hout].
    + rewrite (idgen_reclaim_used s id Hin). cbn. unfold is_used. cbn. split.
      * apply bool_decide_eq_false.
        intros [_ Hne]%elem_of_difference. apply Hne.
        by apply elem_of_singleton.
      * intros x Hx. apply bool_decide_ext.
        rewrite elem_of_difference, elem_of_singleton. tauto.
    + rewrite (idgen_reclaim_unused s id Hout). cbn. split; [|done].
      by apply bool_decide_eq_false.
Qed.

(** X10. [reclaim_id] is idempotent: once [id] has been reclaimed, whether
    that call moved it or did nothing, reclaiming it again returns and
    changes nothing (the pool does not get [id] twice). *)
Theorem idgen_reclaim_idempotent s id :
  reclaim_id id (exec (reclaim_id id) s)
  = (Return (), exec (reclaim_id id) s).
Proof.
  apply idgen_reclaim_unused. unfold exec.
  destruct (decide (id ∈ used_ids s)) as [Hin|Hout].
  - rewrite (idgen_reclaim_used s id Hin). cbn.
    intros [_ Hne]%elem_of_difference. apply Hne. by apply elem_of_singleton.
  - by rewrite (idgen_reclaim_unused s id Hout).
Qed.

End lenient_reachable.

(** * Further properties of [UniqueIDGenerator] *)

Section strict_reachable.
Import UniqueIDGenerator.

Implicit Types (s : state) (id : Z) (cs : list call) (k : Z).

Lemma uniq_inv_initial : uniq_inv 0 initial.
Proof.
  unfold uniq_inv. cbn. split_and!; [lia|lia|constructor|done|].
  intros x. rewrite elem_of_empty, elem_of_nil. lia.
Qed.

Lemma uniq_inv_get_id k s :
  uniq_inv k s → k + 1 ≤ INT_MAX → uniq_inv (k + 1) (exec get_id s).
Proof.
  intros (Hnext & Hnd & Hdisj & Huni) Hk. unfold exec.
  destruct (reclaimed_ids s) as [|front rest] eqn:Hq.
  - rewrite (uniq_get_id_fresh s Hq). cbn.
    rewrite wrap_int_small by (unfold INT_MIN; lia).
    unfold uniq_inv. cbn. split_and!; [lia|lia|constructor| |].
    + intros x _. apply not_elem_of_nil.
    + intros x. specialize (Huni x).
      rewrite elem_of_union, elem_of_singleton, elem_of_nil in *.
      assert (0 ≤ x < next_id s + 1 ↔ x = next_id s ∨ 0 ≤ x < next_id s)
        as Har by lia.
      tauto.
  - rewrite (uniq_get_id_reuse s front rest Hq). cbn.
    apply NoDup_cons in Hnd as [Hfront Hrest].
    unfold uniq_inv. cbn. split_and!; [lia|lia|done| |].
    + intros x [->%elem_of_singleton|Hx]%elem_of_union; [done|].
      intros Hxr. apply (Hdisj x Hx). by right.
    + intros x. rewrite <- (Huni x), elem_of_union, elem_of_singleton,
        elem_of_cons. tauto.
Qed.

Lemma uniq_inv_reclaim_id k s id :
  uniq_inv k s → uniq_inv k (exec (reclaim_id id) s).
Proof.
  intros (Hnext & Hnd & Hdisj & Huni). unfold exec.
  destruct (decide (id ∈ used_ids s)) as [Hin|Hout].
  - rewrite (uniq_reclaim_used s id Hin). cbn.
    unfold uniq_inv. cbn. split_and!; [lia|lia| | |].
    + apply NoDup_app. split_and!; [done| |apply NoDup_singleton].
      intros x Hx ->%list_elem_of_singleton. by apply (Hdisj id).
    + intros x [Hx Hne]%elem_of_difference [Hxq|Hxi]%elem_of_app.
      * by apply (Hdisj x).
      * apply list_elem_of_singleton in Hxi. apply Hne.
        by apply elem_of_singleton.
    + intros x. rewrite <- (Huni x), elem_of_difference, elem_of_singleton,
        elem_of_app, list_elem_of_singleton.
      destruct (decide (x = id)) as [->|Hne]; tauto.
  - by rewrite (uniq_reclaim_unused s id Hout).
Qed.

Lemma uniq_inv_run cs : ∀ k s,
  uniq_inv k s →
  k + Z.of_nat (length cs) ≤ INT_MAX →
  uniq_inv (k + Z.of_nat (length cs)) (run cs s).
Proof.
  induction cs as [|c cs IH]; intros k s Hs Hk.
  - cbn. by rewrite Z.add_0_r.
  - cbn [length run foldl] in *. rewrite Nat2Z.inj_succ in *.
    replace (k + Z.succ (Z.of_nat (length cs)))
      with ((k + 1) + Z.of_nat (length cs)) by lia.
    apply IH; [|lia]. destruct c as [|id]; cbn.
    + pose proof (uniq_inv_get_id k s Hs ltac:(lia)) as Hstep.
      unfold exec in *. unfold mbind, M_bind.
      by destruct (get_id s) as [[x|e] s'].
    + destruct (uniq_inv_reclaim_id k s id Hs) as (Hnext & Hrest).
      split; [lia|done].
Qed.

(** X11. After any sequence of at most [INT_MAX] calls made through
    [IDGenerator] on a fresh [UniqueIDGenerator], the pool has no
    duplicates, no identifier is both used and in the pool, and the used set
    and the pool together hold exactly the identifiers below [next_id]. *)
Theorem uniq_conservation cs :
  Z.of_nat (length cs) ≤ INT_MAX →
  NoDup (reclaimed_ids (run cs initial))
  ∧ (∀ x, x ∈ used_ids (run cs initial) →
          x ∉ reclaimed_ids (run cs initial))
  ∧ (∀ x, (x ∈ used_ids (run cs initial)
           ∨ x ∈ reclaimed_ids (run cs initial))
          ↔ 0 ≤ x < next_id (run cs initial)).
Proof.
  intros Hlen.
  destruct (uniq_inv_run cs 0 initial uniq_inv_initial ltac:(lia))
    as (_ & Hnd & Hdisj & Huni).
  done.
Qed.

Lemma uniq_conservation_witness :
  NoDup (reclaimed_ids (run sample_calls initial))
  ∧ (∀ x, x ∈ used_ids (run sample_calls initial) →
          x ∉ reclaimed_ids (run sample_calls initial))
  ∧ (∀ x, (x ∈ used_ids (run sample_calls initial)
           ∨ x ∈ reclaimed_ids (run sample_calls initial))
          ↔ 0 ≤ x < next_id (run sample_calls initial)).
Proof.
  apply (uniq_conservation sample_calls). vm_compute. discriminate.
Defined.

(** X12. After any sequence of at most [INT_MAX] calls made through
    [IDGenerator] on a fresh [UniqueIDGenerator], [get_id] returns an
    identifier that is not in use, and leaves it in use and out of the
    pool. *)
Theorem uniq_get_id_not_in_use cs id s' :
  Z.of_nat (length cs) ≤ INT_MAX →
  get_id (run cs initial) = (Return id, s') →
  (id ∉ used_ids (run cs initial))
  ∧ id ∈ used_ids s'
  ∧ (id ∉ reclaimed_ids s').
Proof.
  intros Hlen Hget.
  destruct (uniq_inv_run cs 0 initial uniq_inv_initial ltac:(lia))
    as (_ & Hnd & Hdisj & Huni).
  destruct (reclaimed_ids (run cs initial)) as [|front rest] eqn:Hq.
  - rewrite (uniq_get_id_fresh _ Hq) in Hget. injection Hget as <- <-. cbn.
    split_and!.
    + intros Hin. assert (0 ≤ next_id (run cs initial)
                          < next_id (run cs initial)); [|lia].
      apply Huni. by left.
    + apply elem_of_union. left. by apply elem_of_singleton.
    + apply not_elem_of_nil.
  - rewrite (uniq_get_id_reuse _ front rest Hq) in Hget.
    injection Hget as <- <-. cbn.
    apply NoDup_cons in Hnd as [Hfront Hrest]. split_and!; [|
      apply elem_of_union; left; by apply elem_of_singleton|done].
    intros Hin. apply (Hdisj front Hin). left.
Qed.

Lemma uniq_get_id_not_in_use_witness :
  (1 ∉ used_ids (run [call_get_id; call_get_id; call_reclaim_id 1] initial))
  ∧ 1 ∈ used_ids
          (get_id (run [call_get_id; call_get_id; call_reclaim_id 1]
                     initial)).2
  ∧ (1 ∉ reclaimed_ids
           (get_id (run [call_get_id; call_get_id; call_reclaim_id 1]
                      initial)).2).
Proof.
  apply (uniq_get_id_not_in_use [call_get_id; call_get_id; call_reclaim_id 1]
           1 (get_id (run [call_get_id; call_get_id; call_reclaim_id 1]
                        initial)).2); [vm_compute; discriminate|reflexivity].
Defined.

(** X13. Whatever the state and whatever the first call did, a second
    [reclaim_id] of the same identifier throws [InvalidReclaim] and changes
    nothing. *)
Theorem uniq_double_reclaim s id :
  reclaim_id id (exec (reclaim_id id) s)
  = (Throw InvalidReclaim, exec (reclaim_id id) s).
Proof.
  apply uniq_reclaim_unused. unfold exec.
  destruct (decide (id ∈ used_ids s)) as [Hin|Hout].
  - rewrite (uniq_reclaim_used s id Hin). cbn.
    intros [_ Hne]%elem_of_difference. apply Hne. by apply elem_of_singleton.
  - by rewrite (uniq_reclaim_unused s id Hout).
Qed.

End strict_reachable.

(** * Stream output of [UniqueIDGenerator] *)

Lemma string_app_assoc (a b c : string) : (a +:+ b) +:+ c = a +:+ (b +:+ c).
Proof.
  induction a as [|x a IH]; [done|].
  change (String x ((a +:+ b) +:+ c) = String x (a +:+ b +:+ c)).
  by rewrite IH.
Qed.

Lemma string_app_nil_r (a : string) : a +:+ "" = a.
Proof.
  induction a as [|x a IH]; [done|].
  change (String x (a +:+ "") = String x a). by rewrite IH.
Qed.

Lemma put_spec (str : string) (os : ostream) :
  put str os = (Return (), os +:+ str).
Proof. reflexivity. Qed.

Lemma print_loop (ids : list Z) : ∀ (suf pre : list Z) (os : ostream),
  ids = pre ++ suf →
  Z.of_nat (length ids) ≤ SIZE_MAX →
  foldr (λ i k,
           (put (pretty (ids !!! Z.to_nat i));;
            if decide (i < wrap_size (Z.of_nat (length ids) - 1))
            then put ", "
            else mret ());; k)
        (mret ())
        (seqZ (Z.of_nat (length pre)) (Z.of_nat (length suf))) os
  = (Return (), os +:+ String.concat ", " (pretty <$> suf)).
Proof.
  induction suf as [|x suf IH]; intros pre os Hids Hlen.
  - cbn. by rewrite string_app_nil_r.
  - rewrite (seqZ_cons (Z.of_nat (length pre))) by (cbn [length]; lia).
    cbn [foldr]. unfold mbind at 1, M_bind at 1.
    unfold mbind at 1, M_bind at 1. rewrite put_spec.
    rewrite Nat2Z.id.
    replace (ids !!! length pre) with x
      by (subst ids; symmetry; by apply list_lookup_total_middle).
    assert (Z.of_nat (length ids)
            = Z.of_nat (length pre) + 1 + Z.of_nat (length suf)) as Hsize.
    { subst ids. rewrite length_app. cbn [length]. lia. }
    assert (wrap_size (Z.of_nat (length ids) - 1)
            = Z.of_nat (length pre) + Z.of_nat (length suf)) as Hw.
    { unfold wrap_size. rewrite Z.mod_small; unfold SIZE_MAX in *; lia. }
    replace (Z.succ (Z.of_nat (length pre)))
      with (Z.of_nat (length (pre ++ [x])))
      by (rewrite length_app; cbn [length]; lia).
    replace (Z.pred (Z.of_nat (length (x :: suf))))
      with (Z.of_nat (length suf)) by (cbn [length]; lia).
    destruct suf as [|y suf].
    + rewrite decide_False by (rewrite Hw; cbn [length]; lia).
      unfold mret at 1, M_ret at 1. cbn. reflexivity.
    + rewrite decide_True by (rewrite Hw; cbn [length]; lia).
      rewrite put_spec.
      rewrite (IH (pre ++ [x])); [|by rewrite <- app_assoc|done].
      change (pretty <$> x :: y :: suf)
        with (pretty x :: (pretty <$> y :: suf)).
      change (pretty <$> y :: suf) with (pretty y :: (pretty <$> suf)).
      cbn [String.concat]. by rewrite !string_app_assoc.
Qed.

(** X14. [operator<<] writes ["Used IDs: ["], the identifiers of
    [get_used_ids] in decimal with [", "] between consecutive ones and
    nothing after the last, then ["]"]; the list it prints holds every used
    identifier exactly once.  (For the empty set [ids.size() - 1] wraps to
    [SIZE_MAX], but the loop body does not run and the output is
    ["Used IDs: []"].) *)
Theorem operator_shl_format (generator : UniqueIDGenerator.state) (os : ostream) :
  Z.of_nat (size (UniqueIDGenerator.used_ids generator)) ≤ SIZE_MAX →
  operator_shl generator os
  = (Return (),
     os +:+ "Used IDs: ["
        +:+ String.concat ", "
              (pretty <$> UniqueIDGenerator.get_used_ids generator)
        +:+ "]")
  ∧ NoDup (UniqueIDGenerator.get_used_ids generator)
  ∧ (∀ x, x ∈ UniqueIDGenerator.get_used_ids generator
          ↔ x ∈ UniqueIDGenerator.used_ids generator).
Proof.
  intros Hlen. split_and!.
  - unfold operator_shl, for_range.
    unfold mbind at 1, M_bind at 1. rewrite put_spec.
    unfold mbind at 1, M_bind at 1. rewrite Z.sub_0_r.
    rewrite (print_loop (UniqueIDGenerator.get_used_ids generator)
               (UniqueIDGenerator.get_used_ids generator) []); [|done|done].
    rewrite put_spec. by rewrite !string_app_assoc.
  - unfold UniqueIDGenerator.get_used_ids. apply NoDup_elements.
  - intros x. unfold UniqueIDGenerator.get_used_ids. apply elem_of_elements.
Qed.

Lemma operator_shl_format_witness :
  operator_shl uniq_busy ""
  = (Return (),
     "" +:+ "Used IDs: ["
        +:+ String.concat ", " (pretty <$> UniqueIDGenerator.get_used_ids uniq_busy)
        +:+ "]")
  ∧ NoDup (UniqueIDGenerator.get_used_ids uniq_busy)
  ∧ (∀ x, x ∈ UniqueIDGenerator.get_used_ids uniq_busy
          ↔ x ∈ UniqueIDGenerator.used_ids uniq_busy).
Proof.
  apply (operator_shl_format uniq_busy ""). vm_compute. discriminate.
Defined.

Example operator_shl_empty :
  (operator_shl UniqueIDGenerator.initial "").2 = "Used IDs: []".
Proof. reflexivity. Qed.

Example operator_shl_one :
  (operator_shl (exec UniqueIDGenerator.get_id UniqueIDGenerator.initial) "").2
  = "Used IDs: [0]".
Proof. by vm_compute. Qed.

(** * Reclaiming a batch and allocating again *)

Section bounded_batch.
Import BoundedUniqueIDGenerator.

Implicit Types (s : state) (id : Z) (l : list Z).

Lemma reclaim_batch l : ∀ s,
  NoDup l →
  (∀ x, x ∈ l → x ∈ used_ids s ∧ 0 ≤ x < max_value s) →
  run (call_reclaim_id <$> l) s
  = {| max_value := max_value s; next_id := next_id s;
       available_ids := available_ids s ++ l;
       used_ids := used_ids s ∖ list_to_set l |}.
Proof.
  induction l as [|x l IH]; intros s Hnd Hl.
  - cbn. rewrite app_nil_r, difference_empty_L. by destruct s.
  - apply NoDup_cons in Hnd as [Hx Hnd].
    change (run (call_reclaim_id <$> x :: l) s)
      with (run (call_reclaim_id <$> l) (exec (reclaim_id x) s)).
    unfold exec at 1.
    destruct (Hl x ltac:(left)) as [Hin Hrange].
    rewrite reclaim_id_valid by (intros [?|[?|?]]; [lia|lia|done]).
    cbn [snd]. rewrite IH; [|done|].
    + cbn. f_equal; [by rewrite <- app_assoc|].
      apply set_eq. intros y.
      rewrite !elem_of_difference, elem_of_union, elem_of_singleton. tauto.
    + intros y Hy. destruct (Hl y ltac:(by right)) as [Hyin Hyrange]. cbn.
      split; [|done]. apply elem_of_difference. split; [done|].
      intros ->%elem_of_singleton. done.
Qed.

Lemma repeat_get_id_used l : ∀ s rest,
  available_ids s = l ++ rest →
  repeat_call (length l) get_id s
  = (Return l, {| max_value := max_value s; next_id := next_id s;
                  available_ids := rest;
                  used_ids := list_to_set l ∪ used_ids s |}).
Proof.
  induction l as [|x l IH]; intros s rest Hq.
  - cbn in *. unfold mret, M_ret. rewrite (left_id_L ∅ (∪)).
    destruct s. cbn in *. by subst.
  - cbn [length repeat_call]. unfold mbind at 1, M_bind at 1.
    rewrite (get_id_front s x (l ++ rest) Hq).
    unfold mbind, M_bind. rewrite (IH _ rest) by done. cbn.
    do 2 f_equal. apply set_eq. intros y.
    rewrite !elem_of_union, elem_of_singleton. tauto.
Qed.

(** X15. In a reachable state of a bounded allocator whose pool is empty,
    reclaiming distinct identifiers that are in use and then calling
    [get_id] as many times returns those identifiers in the order they were
    reclaimed, and the allocator is back in the state it started from. *)
Theorem bounded_reclaim_then_get C s0 cs l :
  construct C = inr s0 →
  available_ids (run cs s0) = [] →
  NoDup l →
  (∀ x, x ∈ l → x ∈ used_ids (run cs s0)) →
  repeat_call (length l) get_id (run (call_reclaim_id <$> l) (run cs s0))
  = (Return l, run cs s0).
Proof.
  intros Hnew Hq Hnd Hl.
  destruct (bounded_reachable C s0 cs Hnew)
    as [(Hmax & _ & _ & _) Huni].
  rewrite reclaim_batch; [|done|].
  - rewrite (repeat_get_id_used l _ []) by (cbn; by rewrite Hq, app_nil_r).
    cbn. f_equal. destruct (run cs s0) as [mv ni av us]. cbn in *.
    subst av. f_equal. apply set_eq. intros y.
    rewrite elem_of_union, elem_of_difference, !elem_of_list_to_set.
    destruct (decide (y ∈ l)) as [Hy|Hy]; [|tauto].
    split; [intros _; by apply Hl|by left].
  - intros x Hx. split; [by apply Hl|]. rewrite Hmax.
    apply (Huni x). left. by apply Hl.
Qed.

Lemma bounded_reclaim_then_get_witness :
  repeat_call (length [1; 0]) get_id
    (run (call_reclaim_id <$> [1; 0]) (run [call_get_id; call_get_id] bounded_two))
  = (Return [1; 0], run [call_get_id; call_get_id] bounded_two).
Proof.
  apply (bounded_reclaim_then_get 2 bounded_two [call_get_id; call_get_id] [1; 0]).
  - reflexivity.
  - reflexivity.
  - apply NoDup_cons. split; [|apply NoDup_singleton].
    intros Hin%list_elem_of_singleton. discriminate Hin.
  - intros x Hx. vm_compute in Hx.
    apply elem_of_cons in Hx as [->|Hx]; [by vm_compute|].
    apply list_elem_of_singleton in Hx as ->. by vm_compute.
Defined.

End bounded_batch.

(** * [IdGenerator] against [UniqueIDGenerator] *)

Lemma same_fields_step (c : call) (a : IdGenerator.state)
    (b : UniqueIDGenerator.state) (k : Z) :
  same_fields a b → uniq_inv k b → k + 1 ≤ INT_MAX →
  same_fields (exec (idgen_perform c) a) (exec (perform c) b).
Proof.
  intros (Hnext & Hused & Hpool) (Hk & _) Hmax. unfold exec.
  destruct c as [|id]; cbn [idgen_perform perform virtual_get_id
    virtual_reclaim_id UniqueIDGenerator_IDGenerator];
    unfold mbind, M_bind.
  - destruct (IdGenerator.reclaimed_ids a) as [|front rest] eqn:Hq.
    + rewrite (idgen_get_id_fresh a Hq).
      rewrite (uniq_get_id_fresh b) by congruence.
      rewrite wrap_uint_small by (unfold UINT_MAX, INT_MAX in *; lia).
      rewrite decide_False by (unfold UINT_MAX, INT_MAX in *; lia).
      rewrite wrap_int_small by (unfold INT_MIN, INT_MAX in *; lia).
      unfold same_fields. cbn. rewrite Hnext, Hused. done.
    + rewrite (idgen_get_id_reuse a front rest Hq).
      rewrite (uniq_get_id_reuse b front rest) by congruence.
      unfold same_fields. cbn. rewrite Hnext, Hused. done.
  - destruct (decide (id ∈ IdGenerator.used_ids a)) as [Hin|Hout].
    + rewrite (idgen_reclaim_used a id Hin).
      rewrite (uniq_reclaim_used b id) by congruence.
      unfold same_fields. cbn. rewrite Hnext, Hused, Hpool. done.
    + rewrite (idgen_reclaim_unused a id Hout).
      rewrite (uniq_reclaim_unused b id) by congruence.
      done.
Qed.

Lemma same_fields_run (cs : list call) : ∀ a b k,
  same_fields a b → uniq_inv k b →
  k + Z.of_nat (length cs) ≤ INT_MAX →
  same_fields (idgen_run cs a) (run cs b).
Proof.
  induction cs as [|c cs IH]; intros a b k Hab Hb Hk; [done|].
  cbn [length idgen_run run foldl] in *. rewrite Nat2Z.inj_succ in Hk.
  apply (IH _ _ (k + 1)); [|  |lia].
  - apply (same_fields_step c a b k); [done|done|lia].
  - pose proof (uniq_inv_run [c] k b Hb) as Hone.
    cbn [length run foldl] in Hone. apply Hone. lia.
Qed.

(** X16. [IdGenerator] and the deprecated [UniqueIDGenerator] agree until
    the counter leaves [int]: after the same sequence of at most [INT_MAX]
    calls on fresh allocators (a reclaim of an unused identifier being
    ignored by the one and refused by the other), they hold the same
    counter, used set and pool, and the next [get_id] returns the same
    identifier in both. *)
Theorem idgen_agrees_with_uniq (cs : list call) :
  Z.of_nat (length cs) ≤ INT_MAX →
  same_fields (idgen_run cs IdGenerator.initial)
              (run cs UniqueIDGenerator.initial)
  ∧ (IdGenerator.get_id (idgen_run cs IdGenerator.initial)).1
    = (UniqueIDGenerator.get_id (run cs UniqueIDGenerator.initial)).1.
Proof.
  intros Hlen.
  assert (same_fields (idgen_run cs IdGenerator.initial)
                      (run cs UniqueIDGenerator.initial)) as Hsame.
  { apply (same_fields_run cs _ _ 0); [done|apply uniq_inv_initial|lia]. }
  split; [done|]. destruct Hsame as (Hnext & Hused & Hpool).
  destruct (IdGenerator.reclaimed_ids (idgen_run cs IdGenerator.initial))
    as [|front rest] eqn:Hq.
  - rewrite (idgen_get_id_fresh _ Hq).
    rewrite uniq_get_id_fresh by congruence. cbn. by rewrite Hnext.
  - rewrite (idgen_get_id_reuse _ front rest Hq).
    by rewrite (uniq_get_id_reuse _ front rest) by congruence.
Qed.

Lemma idgen_agrees_with_uniq_witness :
  same_fields (idgen_run sample_calls IdGenerator.initial)
              (run sample_calls UniqueIDGenerator.initial)
  ∧ (IdGenerator.get_id (idgen_run sample_calls IdGenerator.initial)).1
    = (UniqueIDGenerator.get_id (run sample_calls UniqueIDGenerator.initial)).1.
Proof.
  apply (idgen_agrees_with_uniq sample_calls). vm_compute. discriminate.
Defined.
